(** * Contractor / license entity resolution: a shallow embedding

    The development follows two scripts of the repository:

    - [match_plumber_licenses.py]: the license-directory extractor
      ([extract_license_data_from_pdf]), the name normalizer
      ([normalize_company_name]), the similarity scorer
      ([fuzzy_match_companies]) and the matcher / merge loop
      ([match_and_update_contacts]);
    - [create_active_plumbers_with_contact_info.py]: phone extraction from
      an address ([extract_phone_from_address]), the e-mail heuristic
      ([generate_email]) and the first contact pass
      ([create_active_plumbers_with_contact]).

    Conventions.  A Python [str] is a [list ascii]; the model covers 7-bit
    ASCII text, on which [str.upper], [str.lower], [str.isspace] and the
    [re] classes [\d], [\w], [\s] are the functions below.  A missing value
    ([None] / [NaN], tested with [pd.isna]) is [None] of an [option].
    Python floats that the scripts compute are quotients of two small
    integers compared with the literals 0.85, 0.9 and 1.0; they are kept as
    exact rationals ([Q]), which orders them as the doubles are ordered for
    any pair of names shorter than 2^26 characters. *)

From Stdlib Require Import Ascii String List Bool Arith ZArith QArith Lia.
From Stdlib Require Import Permutation Sorted.
Import ListNotations.
Close Scope Q_scope.

(** ** Python string primitives *)

Module PyStr.

Definition str := list ascii.

(** String literals of the scripts are written [lit "..."]. *)
Definition lit (s : string) : str := list_ascii_of_string s.
Arguments lit s%_string.

Definition code (c : ascii) : nat := nat_of_ascii c.

Definition between (lo hi : nat) (c : ascii) : bool :=
  (lo <=? code c) && (code c <=? hi).

(** [str.isspace] and the class [\s] on ASCII: TAB..CR, FS..US, space. *)
Definition is_space (c : ascii) : bool := between 9 13 c || between 28 32 c.

(** [\d] *)
Definition is_digit (c : ascii) : bool := between 48 57 c.

(** [[A-Z]] and [[a-z]] *)
Definition is_upper (c : ascii) : bool := between 65 90 c.
Definition is_lower (c : ascii) : bool := between 97 122 c.
Definition is_alpha (c : ascii) : bool := is_upper c || is_lower c.

(** [\w] *)
Definition is_word (c : ascii) : bool :=
  is_alpha c || is_digit c || Ascii.eqb c "_".

Definition upper_char (c : ascii) : ascii :=
  if is_lower c then ascii_of_nat (code c - 32) else c.

Definition lower_char (c : ascii) : ascii :=
  if is_upper c then ascii_of_nat (code c + 32) else c.

(** [s.upper()], [s.lower()] *)
Definition upper (s : str) : str := map upper_char s.
Definition lower (s : str) : str := map lower_char s.

Fixpoint eqb (a b : str) : bool :=
  match a, b with
  | [], [] => true
  | x :: a', y :: b' => Ascii.eqb x y && eqb a' b'
  | _, _ => false
  end.

(** [s.startswith(p)] *)
Fixpoint startswith (s p : str) {struct p} : bool :=
  match p, s with
  | [], _ => true
  | x :: p', y :: s' => Ascii.eqb x y && startswith s' p'
  | _ :: _, [] => false
  end.

(** [s.endswith(p)] *)
Definition endswith (s p : str) : bool := startswith (rev s) (rev p).

(** [s.find(p)] as the index of the first occurrence, if any. *)
Fixpoint find_from (s p : str) (pos : nat) : option nat :=
  if startswith s p then Some pos
  else match s with
       | [] => None
       | _ :: s' => find_from s' p (S pos)
       end.

(** [s.find(p)]: the index of the first occurrence, [-1] when absent. *)
Definition find (s p : str) : Z :=
  match find_from s p 0 with
  | Some i => Z.of_nat i
  | None => (-1)%Z
  end.

(** [p in s] *)
Definition contains (s p : str) : bool :=
  match find_from s p 0 with Some _ => true | None => false end.

(** [s[:k]] for a signed bound: a negative [k] counts from the end. *)
Definition slice_to (s : str) (k : Z) : str :=
  if (k <? 0)%Z
  then firstn (Z.to_nat (Z.of_nat (length s) + k)) s
  else firstn (Z.to_nat k) s.

(** [s[k:]] for a non-negative [k]. *)
Definition slice_from (s : str) (k : nat) : str := skipn k s.

(** [s.lstrip()], [s.rstrip()], [s.strip()] *)
Fixpoint lstrip (s : str) : str :=
  match s with
  | c :: s' => if is_space c then lstrip s' else s
  | [] => []
  end.

Definition rstrip (s : str) : str := rev (lstrip (rev s)).

Definition strip (s : str) : str := rstrip (lstrip s).

(** [s.split()]: maximal runs of non-space characters, in order.
    [cur] is the word being read. *)
Fixpoint split_acc (s cur : str) : list str :=
  match s with
  | [] => match cur with [] => [] | _ => [cur] end
  | c :: s' =>
      if is_space c
      then match cur with
           | [] => split_acc s' []
           | _ => cur :: split_acc s' []
           end
      else split_acc s' (cur ++ [c])
  end.

Definition split (s : str) : list str := split_acc s [].

(** [s.split(sep)] for a one-character separator. *)
Fixpoint split_on_acc (sep : ascii) (s cur : str) : list str :=
  match s with
  | [] => [cur]
  | c :: s' =>
      if Ascii.eqb c sep
      then cur :: split_on_acc sep s' []
      else split_on_acc sep s' (cur ++ [c])
  end.

Definition split_on (sep : ascii) (s : str) : list str :=
  split_on_acc sep s [].

(** [sep.join(ws)] *)
Fixpoint join (sep : str) (ws : list str) : str :=
  match ws with
  | [] => []
  | [w] => w
  | w :: ws' => w ++ sep ++ join sep ws'
  end.

(** [s.replace(old, new)]: occurrences of [old] are taken left to right
    and do not overlap.  [skip] counts the characters of the occurrence
    just replaced that are still to be passed over. *)
Fixpoint replace_skip (old new s : str) (skip : nat) : str :=
  match s with
  | [] => []
  | c :: s' =>
      match skip with
      | S k => replace_skip old new s' k
      | O =>
          if startswith s old
          then new ++ replace_skip old new s' (length old - 1)
          else c :: replace_skip old new s' 0
      end
  end.

Definition replace (s old new : str) : str :=
  match old with
  | [] => new ++ flat_map (fun c => c :: new) s
  | _ => replace_skip old new s 0
  end.

(** Truth value of a string: empty strings are false. *)
Definition truthy (s : str) : bool :=
  match s with [] => false | _ => true end.

(** Truth value of an optional string: [None] and [""] are false. *)
Definition truthy_opt (o : option str) : bool :=
  match o with Some s => truthy s | None => false end.

End PyStr.

Import PyStr.

(** ** The fragment of Python's [re] that the scripts use

    Every pattern of the two scripts is a sequence of character classes
    under a greedy quantifier, possibly with word-boundary assertions
    ([\b]); capture groups only delimit the whole match.  Matching is
    backtracking, leftmost start first and longest repetition first, as
    [re.search] does. *)

Module Re.

Inductive item : Type :=
| Rep (cls : ascii -> bool) (lo : nat) (hi : option nat)
    (** [cls{lo,hi}], greedy; [hi = None] is unbounded *)
| Boundary.
    (** [\b] *)

Definition pattern := list item.

(** Common shapes. *)
Definition one (cls : ascii -> bool) : item := Rep cls 1 (Some 1).
Definition chr (c : ascii) : item := one (Ascii.eqb c).
Definition exactly (n : nat) (cls : ascii -> bool) : item := Rep cls n (Some n).
Definition opt (cls : ascii -> bool) : item := Rep cls 0 (Some 1).
Definition star (cls : ascii -> bool) : item := Rep cls 0 None.
Definition plus (cls : ascii -> bool) : item := Rep cls 1 None.
Definition at_least (n : nat) (cls : ascii -> bool) : item := Rep cls n None.

(** Number of leading characters of [s] in [cls], at most [hi]. *)
Fixpoint run (cls : ascii -> bool) (hi : option nat) (s : str) : nat :=
  match s with
  | c :: s' =>
      if cls c
      then match hi with
           | Some 0 => 0
           | Some (S h) => S (run cls (Some h) s')
           | None => S (run cls None s')
           end
      else 0
  | [] => 0
  end.

Definition is_word_opt (o : option ascii) : bool :=
  match o with Some c => is_word c | None => false end.

(** [\b] holds between [prev] and the head of [s] when exactly one of
    them is a word character. *)
Definition at_boundary (prev : option ascii) (s : str) : bool :=
  xorb (is_word_opt prev) (is_word_opt (hd_error s)).

(** The character before position [k] of [s], [prev] when [k = 0]. *)
Definition prev_at (prev : option ascii) (s : str) (k : nat) : option ascii :=
  match k with
  | 0 => prev
  | S k' => match nth_error s k' with Some c => Some c | None => prev end
  end.

(** Backtracking over a repetition count: [k], then [k-1], ... down to
    [lo]; the first count that lets the rest match wins. *)
Fixpoint first_down (f : nat -> option nat) (lo k : nat) : option nat :=
  match f k with
  | Some r => Some r
  | None =>
      match k with
      | 0 => None
      | S k' => if lo <=? k' then first_down f lo k' else None
      end
  end.

(** [match_here p prev s]: the length of the match of [p] anchored at the
    start of [s], where [prev] is the character before [s]. *)
Fixpoint match_here (p : pattern) (prev : option ascii) (s : str)
  : option nat :=
  match p with
  | [] => Some 0
  | Boundary :: p' =>
      if at_boundary prev s then match_here p' prev s else None
  | Rep cls lo hi :: p' =>
      let m := run cls hi s in
      if m <? lo then None
      else first_down
             (fun k =>
                match match_here p' (prev_at prev s k) (skipn k s) with
                | Some n => Some (k + n)
                | None => None
                end)
             lo m
  end.

(** [re.search(p, s)]: start and length of the leftmost match. *)
Fixpoint search_from (p : pattern) (prev : option ascii) (s : str)
  (pos : nat) : option (nat * nat) :=
  match match_here p prev s with
  | Some n => Some (pos, n)
  | None =>
      match s with
      | [] => None
      | c :: s' => search_from p (Some c) s' (S pos)
      end
  end.

Definition search (p : pattern) (s : str) : option (nat * nat) :=
  search_from p None s 0.

(** [match.group()] of a successful search. *)
Definition group (s : str) (m : nat * nat) : str :=
  firstn (snd m) (skipn (fst m) s).

(** [match.start()] *)
Definition start (m : nat * nat) : nat := fst m.

(** [re.sub(cls, rep, s)] for a one-character class: every character of
    the class is replaced by [rep]. *)
Definition sub_class (cls : ascii -> bool) (rep : str) (s : str) : str :=
  flat_map (fun c => if cls c then rep else [c]) s.

(** [re.sub(cls+, rep, s)]: every maximal run of the class is replaced
    by one [rep].  [in_run] tells whether the previous character was in
    the class. *)
Fixpoint sub_runs_from (cls : ascii -> bool) (rep : str) (s : str)
  (in_run : bool) : str :=
  match s with
  | [] => []
  | c :: s' =>
      if cls c
      then (if in_run then [] else rep) ++ sub_runs_from cls rep s' true
      else c :: sub_runs_from cls rep s' false
  end.

Definition sub_runs (cls : ascii -> bool) (rep : str) (s : str) : str :=
  sub_runs_from cls rep s false.

End Re.

(** ** [difflib.SequenceMatcher(None, a, b).ratio()]

    The matcher of the Python library, without a junk predicate.  Its
    automatic junk heuristic only starts when the second sequence has 200
    elements or more; the model is the algorithm below that size, which is
    where company names live. *)

Module Difflib.

(** [Match(a, b, size)] *)
Record Match : Type := mkMatch { m_a : nat; m_b : nat; m_size : nat }.

(** The inner loop of [find_longest_match] for one element [x = a[i]].
    [prev] is the row [j2len] of the previous element, one entry per
    position of [b] (0 where the dictionary has no key) read from
    position [j] on, and [diag] is its entry at [j - 1].  The result is
    the row [newj2len] and the best block so far. *)
Fixpoint scan_row (x : ascii) (b : str) (prev : list nat) (diag : nat)
  (i j : nat) (best : Match) : list nat * Match :=
  match b with
  | [] => ([], best)
  | y :: b' =>
      let here := hd 0 prev in
      if Ascii.eqb x y
      then
        let k := S diag in
        let best' :=
          if m_size best <? k
          then mkMatch (i + 1 - k) (j + 1 - k) k
          else best in
        let (row, best'') := scan_row x b' (tl prev) here i (S j) best' in
        (k :: row, best'')
      else
        let (row, best'') := scan_row x b' (tl prev) here i (S j) best in
        (0 :: row, best'')
  end.

(** The outer loop over the elements of [a]. *)
Fixpoint scan_rows (a b : str) (prev : list nat) (i : nat) (best : Match)
  : Match :=
  match a with
  | [] => best
  | x :: a' =>
      let (row, best') := scan_row x b prev 0 i 0 best in
      scan_rows a' b row (S i) best'
  end.

(** [find_longest_match] on whole sequences: the longest common block,
    the earliest in [a] among the longest, then the earliest in [b]. *)
Definition find_longest_match (a b : str) : Match :=
  scan_rows a b [] 0 (mkMatch 0 0 0).

(** Total size of the blocks of [get_matching_blocks]: the longest block,
    then the same on what lies to its left and to its right.  Each level
    takes at least one element out of [a], so [S (length a)] levels are
    always enough (see [matched_fuel_enough]). *)
Fixpoint matched (fuel : nat) (a b : str) : nat :=
  match fuel with
  | 0 => 0
  | S fuel' =>
      let m := find_longest_match a b in
      let i := m_a m in
      let j := m_b m in
      let k := m_size m in
      if k =? 0 then 0
      else
        k
        + (if (0 <? i) && (0 <? j)
           then matched fuel' (firstn i a) (firstn j b) else 0)
        + (if (i + k <? length a) && (j + k <? length b)
           then matched fuel' (skipn (i + k) a) (skipn (j + k) b) else 0)
  end.

Definition matches (a b : str) : nat := matched (S (length a)) a b.

(** [_calculate_ratio(matches, length)] *)
Definition calculate_ratio (matches length : nat) : Q :=
  match length with
  | 0 => 1%Q
  | _ => Qmake (Z.of_nat (2 * matches)) (Pos.of_nat length)
  end.

(** [SequenceMatcher(None, a, b).ratio()] *)
Definition ratio (a b : str) : Q :=
  calculate_ratio (matches a b) (length a + length b).

End Difflib.

(** ** Python floats used as scores *)

Module Score.

Definition lt (x y : Q) : bool := negb (Qle_bool y x).
Definition ge (x y : Q) : bool := Qle_bool y x.

(** [max(x, y)] of Python: [y] only when it is strictly greater. *)
Definition max (x y : Q) : Q := if lt x y then y else x.

Definition threshold : Q := 85 # 100.
Definition nine_tenths : Q := 9 # 10.

End Score.

(** ** [match_plumber_licenses.py] *)

Module MatchPlumberLicenses.

(** A row of the license table: the dictionary appended by the
    extractor. *)
Record license : Type := mkLicense {
  license_company : str;
  license_phone : option str;
  license_email : option str
}.

Definition newline : ascii := "010"%char.
Definition dquote : ascii := "034"%char.

Definition in_set (cs : str) (c : ascii) : bool := existsb (Ascii.eqb c) cs.

(** [\d{3}-\d{3}-\d{4}] *)
Definition phone_re : Re.pattern :=
  [Re.exactly 3 is_digit; Re.chr "-"; Re.exactly 3 is_digit; Re.chr "-";
   Re.exactly 4 is_digit].

Definition email_local (c : ascii) : bool :=
  is_alpha c || is_digit c || in_set (lit "._%+-") c.

Definition email_domain (c : ascii) : bool :=
  is_alpha c || is_digit c || in_set (lit ".-") c.

(** [[a-zA-Z0-9._%+-]+@[a-zA-Z0-9.-]+\.[a-zA-Z]{2,}] *)
Definition email_re : Re.pattern :=
  [Re.plus email_local; Re.chr "@"; Re.plus email_domain; Re.chr ".";
   Re.at_least 2 is_alpha].

(** [\d+\s+[A-Z]] *)
Definition address_re : Re.pattern :=
  [Re.plus is_digit; Re.plus is_space; Re.one is_upper].

Definition marker : str := lit "L101".
Definition status_marker : str := lit "APPROVED".

(** The header test of the line loop. *)
Definition is_header (line : str) : bool :=
  contains line (lit "License Type") && contains line (lit "Applicant Name").

(** The company name of a marked line, before the final test: [None]
    when [line.find('APPROVED') > 0] fails. *)
Definition company_of (line : str) (phone email : option str)
  : option str :=
  let approved_idx := find line status_marker in
  if (0 <? approved_idx)%Z then
    let after_approved :=
      strip (slice_from line (Z.to_nat (approved_idx + 8))) in
    let company_name :=
      match Re.search address_re after_approved with
      | Some address_match =>
          strip (firstn (Re.start address_match) after_approved)
      | None =>
          match phone, email with
          | Some ph, _ =>
              strip (slice_to after_approved (find after_approved ph))
          | None, Some em =>
              strip (slice_to after_approved (find after_approved em))
          | None, None => strip after_approved
          end
      end in
    Some (Re.sub_runs is_space (lit " ") company_name)
  else None.

Definition phone_of (line : str) : option str :=
  option_map (Re.group line) (Re.search phone_re line).

Definition email_of (line : str) : option str :=
  option_map (fun m => lower (Re.group line m)) (Re.search email_re line).

(** The body of the loop over lines: the record appended for [line], if
    any. *)
Definition extract_line (line : str) : option license :=
  if is_header line then None
  else if startswith (strip line) marker then
    let phone := phone_of line in
    let email := email_of line in
    match company_of line phone email with
    | Some company_name =>
        if truthy company_name && (truthy_opt phone || truthy_opt email)
        then Some (mkLicense company_name phone email)
        else None
    | None => None
    end
  else None.

Definition option_list {A : Type} (o : option A) : list A :=
  match o with Some x => [x] | None => [] end.

(** [extract_license_data_from_pdf], from the text of each page as
    [page.extract_text()] returns it. *)
Definition extract_license_data_from_pdf (pages : list str) : list license :=
  flat_map
    (fun text =>
       flat_map (fun line => option_list (extract_line line))
         (split_on newline text))
    pages.

(** The punctuation class of the normalizer: full stop, comma,
    apostrophe, double quote, ampersand and hyphen. *)
Definition punctuation : str := lit ".,'" ++ [dquote] ++ lit "&-".

(** The dictionary [replacements], in insertion order. *)
Definition replacements : list (str * str) :=
  [ (lit " INCORPORATED", lit " INC");
    (lit " CORPORATION", lit " CORP");
    (lit " LIMITED LIABILITY COMPANY", lit " LLC");
    (lit " LIMITED", lit " LTD");
    (lit " COMPANY", lit " CO");
    (lit " AND ", lit " & ");
    (lit "PLUMBING", lit "PLUMBING");
    (lit "HEATING", lit "HEATING");
    (lit "MECHANICAL", lit "MECHANICAL") ].

Definition apply_replacements (name : str) : str :=
  fold_left (fun name kv => replace name (fst kv) (snd kv))
    replacements name.

(** [normalize_company_name] *)
Definition normalize_company_name (name : option str) : str :=
  match name with
  | None => []
  | Some name =>
      let name := upper name in
      let name := Re.sub_class (in_set punctuation) (lit " ") name in
      let name := apply_replacements name in
      join (lit " ") (split name)
  end.

Definition core_words : list str :=
  [lit "INC"; lit "LLC"; lit "CORP"; lit "LTD"; lit "CO"; lit "COMPANY";
   lit "CORPORATION"; lit "LIMITED"].

(** The loop that removes the legal-entity words from a normalized
    name. *)
Definition core_of (name : str) : str :=
  fold_left (fun core word => strip (replace core word [])) core_words name.

(** [fuzzy_match_companies]: the pair [(is_match, score)]. *)
Definition fuzzy_match_companies (permit_name license_name : option str)
  (threshold : Q) : bool * Q :=
  let norm_permit := normalize_company_name permit_name in
  let norm_license := normalize_company_name license_name in
  if PyStr.eqb norm_permit norm_license then (true, 1%Q)
  else
    let similarity := Difflib.ratio norm_permit norm_license in
    let similarity :=
      if contains norm_license norm_permit || contains norm_permit norm_license
      then Score.max similarity Score.nine_tenths
      else similarity in
    if Score.ge similarity threshold then (true, similarity)
    else
      let permit_core := core_of norm_permit in
      let license_core := core_of norm_license in
      if truthy permit_core && truthy license_core then
        let core_similarity := Difflib.ratio permit_core license_core in
        if Score.ge core_similarity Score.nine_tenths
        then (true, core_similarity)
        else (false, similarity)
      else (false, similarity).

(** The score of a pair under the default threshold. *)
Definition score (permit_name license_name : option str) : Q :=
  snd (fuzzy_match_companies permit_name license_name Score.threshold).

Definition is_match (permit_name license_name : option str) : bool :=
  fst (fuzzy_match_companies permit_name license_name Score.threshold).

(** One iteration of the loop over the license rows: the pair
    [(best_match, best_score)] after [license_row]. *)
Definition scan_step (permit_company : option str)
  (best : option license * Q) (license_row : license)
  : option license * Q :=
  let (is_match, score) :=
    fuzzy_match_companies permit_company
      (Some (license_company license_row)) Score.threshold in
  if is_match && Score.lt (snd best) score
  then (Some license_row, score)
  else best.

(** The inner loop of [match_and_update_contacts] for one permit row:
    [best_match] and [best_score] when the scan ends. *)
Definition best_match_for (permit_company : option str)
  (license_df : list license) : option license * Q :=
  fold_left (scan_step permit_company) license_df (None, 0%Q).

(** A row of the contact table read from the first pass, with the four
    tracking columns added by the matcher.  [Match_Confidence] keeps
    [best_score] itself; the column prints it with two decimals. *)
Record row : Type := mkRow {
  Company_Name : option str;
  Contact_Person : option str;
  Phone_Number : option str;
  Email : option str;
  Address : option str;
  City : option str;
  Contact_Info_Source : option str;
  Contact_Confidence : option str;
  Matched_License_Company : option str;
  Match_Confidence : option Q;
  License_Phone : option str;
  License_Email : option str
}.

Definition some_if_truthy (o : option str) : option str :=
  if truthy_opt o then o else None.

(** The body of the matching loop for one row: the tracking columns
    after the scan. *)
Definition match_row (license_df : list license) (r : row) : row :=
  match best_match_for (Company_Name r) license_df with
  | (Some best_match, best_score) =>
      mkRow (Company_Name r) (Contact_Person r) (Phone_Number r) (Email r)
        (Address r) (City r) (Contact_Info_Source r) (Contact_Confidence r)
        (Some (license_company best_match))
        (Some best_score)
        (some_if_truthy (license_phone best_match))
        (some_if_truthy (license_email best_match))
  | (None, _) =>
      mkRow (Company_Name r) (Contact_Person r) (Phone_Number r) (Email r)
        (Address r) (City r) (Contact_Info_Source r) (Contact_Confidence r)
        None None None None
  end.

Definition notna {A : Type} (o : option A) : bool :=
  match o with Some _ => true | None => false end.

(** The four column updates after the loop (from the comment
    [Update the main phone and email columns] down to
    [Update confidence]), on one row. *)
Definition update_columns (r : row) : row :=
  let phone_number := License_Phone r in
  let email := if notna (License_Email r) then License_Email r else Email r in
  let source :=
    if notna (License_Phone r) || notna (License_Email r)
    then Some (lit "Licensed Data")
    else Contact_Info_Source r in
  let confidence :=
    match source with
    | Some src =>
        if PyStr.eqb src (lit "Licensed Data") then Some (lit "High")
        else Contact_Confidence r
    | None => Contact_Confidence r
    end in
  mkRow (Company_Name r) (Contact_Person r) phone_number email
    (Address r) (City r) source confidence
    (Matched_License_Company r) (Match_Confidence r)
    (License_Phone r) (License_Email r).

(** [match_and_update_contacts] on the rows of the table, before the
    final sort (which only reorders rows). *)
Definition match_and_update_contacts (df : list row)
  (license_df : list license) : list row :=
  map (fun r => update_columns (match_row license_df r)) df.

(** The decision the statistics record for a row. *)
Inductive decision : Type := Exact | Fuzzy | NoMatch.

Definition decision_of (best : option license * Q) : decision :=
  match best with
  | (Some _, best_score) =>
      if Qeq_bool best_score 1%Q then Exact else Fuzzy
  | (None, _) => NoMatch
  end.

End MatchPlumberLicenses.

(** ** [create_active_plumbers_with_contact_info.py] *)

Module CreateActivePlumbers.

(** The class [[-.\s]]. *)
Definition separator (c : ascii) : bool :=
  Ascii.eqb c "-" || Ascii.eqb c "." || is_space c.

(** [\b(\d{3}[-.\s]?\d{3}[-.\s]?\d{4})\b] *)
Definition plain_re : Re.pattern :=
  [Re.Boundary; Re.exactly 3 is_digit; Re.opt separator;
   Re.exactly 3 is_digit; Re.opt separator; Re.exactly 4 is_digit;
   Re.Boundary].

(** [\b\((\d{3})\)\s*(\d{3})[-.\s]?(\d{4})\b] *)
Definition paren_re : Re.pattern :=
  [Re.Boundary; Re.chr "("; Re.exactly 3 is_digit; Re.chr ")";
   Re.star is_space; Re.exactly 3 is_digit; Re.opt separator;
   Re.exactly 4 is_digit; Re.Boundary].

(** [\b(\d{10})\b] *)
Definition ten_re : Re.pattern :=
  [Re.Boundary; Re.exactly 10 is_digit; Re.Boundary].

Definition phone_patterns : list Re.pattern := [plain_re; paren_re; ten_re].

(** [re.sub(r'\D', '', text)] *)
Definition digits_of (text : str) : str :=
  Re.sub_class (fun c => negb (is_digit c)) [] text.

(** The f-string [({digits[:3]}) {digits[3:6]}-{digits[6:]}]. *)
Definition format_phone (digits : str) : str :=
  lit "(" ++ firstn 3 digits ++ lit ") " ++ firstn 3 (skipn 3 digits)
  ++ lit "-" ++ skipn 6 digits.

(** The loop over the patterns: a pattern whose first match does not
    give ten digits is passed over. *)
Fixpoint first_phone (patterns : list Re.pattern) (text : str)
  : option str :=
  match patterns with
  | [] => None
  | pattern :: rest =>
      match Re.search pattern text with
      | Some m =>
          let digits := digits_of (Re.group text m) in
          if length digits =? 10 then Some (format_phone digits)
          else first_phone rest text
      | None => first_phone rest text
      end
  end.

(** [extract_phone_from_address] *)
Definition extract_phone_from_address (address_str : option str)
  : option str :=
  match address_str with
  | None => None
  | Some text => first_phone phone_patterns text
  end.

Definition suffixes : list str :=
  [lit "inc"; lit "llc"; lit "corp"; lit "corporation"; lit "company";
   lit "co"; lit "ltd"; lit "plumbing"; lit "mechanical"; lit "heating";
   lit "cooling"; lit "hvac"; lit "services"; lit "service"].

(** [re.sub(f'{suffix}$', '', s)] on a string without line breaks: the
    suffix is cut when the string ends with it. *)
Definition cut_suffix (s suffix : str) : str :=
  if endswith s suffix then firstn (length s - length suffix) s else s.

(** The domain candidate [company_clean]. *)
Definition company_clean_of (company_name : str) : str :=
  let company_clean :=
    Re.sub_class
      (fun c => negb (is_word c || is_space c || Ascii.eqb c "-")) []
      (lower company_name) in
  let company_clean := Re.sub_runs is_space [] company_clean in
  fold_left cut_suffix suffixes company_clean.

Definition generic_names : list str :=
  [lit "center"; lit "point"; lit "urban"; lit "city"].

Definition entity_words : list str :=
  [lit "trust"; lit "estate"; lit "llc"; lit "inc"].

(** [any(word in contact_person.lower() for word in [...])] *)
Definition looks_like_entity (contact_person : str) : bool :=
  existsb (fun word => contains (lower contact_person) word) entity_words.

(** [generate_email] *)
Definition generate_email (company_name contact_person city : option str)
  : option str :=
  match company_name, contact_person with
  | Some company_name, Some contact_person =>
      let company_clean := company_clean_of company_name in
      if (length company_clean <? 3)
         || existsb (PyStr.eqb company_clean) generic_names
      then None
      else
        let name_parts := split contact_person in
        if 2 <=? length name_parts then
          let first_name := lower (hd [] name_parts) in
          let last_name := lower (last name_parts []) in
          if looks_like_entity contact_person then None
          else Some (first_name ++ lit "." ++ last_name ++ lit "@"
                     ++ company_clean ++ lit ".com")
        else Some (lit "info@" ++ company_clean ++ lit ".com")
  | _, _ => None
  end.

(** [search_existing_contact_data]: the placeholder of the script. *)
Definition search_existing_contact_data (company_name : option str)
  : option str * option str :=
  (None, None).

(** A row of the plumber table with the three columns the pass adds and
    the confidence column computed after the loop. *)
Record contact : Type := mkContact {
  Company_Name : option str;
  Contact_Person : option str;
  Address : option str;
  City : option str;
  Phone_Number : option str;
  Email : option str;
  Contact_Info_Source : option str;
  Contact_Confidence : option str
}.

Definition existing_database : str := lit "Existing Database".
Definition extracted_from_address : str := lit "Extracted from Address".
Definition generated : str := lit "Generated".

Definition source_is (source : option str) (label : str) : bool :=
  match source with Some src => PyStr.eqb src label | None => false end.

(** The lambda of [Contact_Confidence]. *)
Definition confidence_of (source : option str) : str :=
  if source_is source existing_database then lit "High"
  else if source_is source extracted_from_address then lit "Medium"
  else if source_is source generated then lit "Low"
  else lit "None".

Section Populate.

(** The lookup of existing contact data, [(phone, email)]. *)
Variable search : option str -> option str * option str.

(** The body of the loop of [create_active_plumbers_with_contact] on
    one row whose three new columns are still empty, followed by the
    confidence column. *)
Definition populate_with (r : contact) : contact :=
  let phone := extract_phone_from_address (Address r) in
  let (existing_phone, existing_email) := search (Company_Name r) in
  let (phone_number, source) :=
    if truthy_opt existing_phone
    then (existing_phone, Some existing_database)
    else if truthy_opt phone
         then (phone, Some extracted_from_address)
         else (None, None) in
  let (email, source) :=
    if truthy_opt existing_email
    then (existing_email,
          if negb (source_is source existing_database)
          then Some existing_database else source)
    else
      let generated_email :=
        generate_email (Company_Name r) (Contact_Person r) (City r) in
      if truthy_opt generated_email
      then (generated_email,
            match source with None => Some generated | Some _ => source end)
      else (None, source) in
  mkContact (Company_Name r) (Contact_Person r) (Address r) (City r)
    phone_number email source (Some (confidence_of source)).

End Populate.

(** The pass as the script runs it. *)
Definition populate (r : contact) : contact :=
  populate_with search_existing_contact_data r.

Definition create_active_plumbers_with_contact (active_df : list contact)
  : list contact :=
  map populate active_df.

End CreateActivePlumbers.

(** ** [DataFrame.sort_values] on several columns

    With more than one key, pandas sorts with a stable lexicographic
    sort: rows that agree on every key keep their order.  [before x y]
    tells that the keys of [x] do not come after those of [y]. *)

Module Pandas.

Section SortValues.

Variable A : Type.
Variable before : A -> A -> bool.

(** [x], which stood in front of every row of [l], goes in front of the
    first row whose keys do not come before its own. *)
Fixpoint insert (x : A) (l : list A) : list A :=
  match l with
  | [] => [x]
  | y :: l' => if before x y then x :: l else y :: insert x l'
  end.

Fixpoint sort_values (l : list A) : list A :=
  match l with
  | [] => []
  | x :: l' => insert x (sort_values l')
  end.

End SortValues.

Arguments insert {A} before x l.
Arguments sort_values {A} before l.

(** The texts that [read_csv] takes for a missing value by default; the
    first one is the empty text, which is also what [to_csv] writes for a
    missing value. *)
Definition na_values : list str :=
  [ []; lit "#N/A"; lit "#N/A N/A"; lit "#NA"; lit "-1.#IND";
    lit "-1.#QNAN"; lit "-NaN"; lit "-nan"; lit "1.#IND"; lit "1.#QNAN";
    lit "<NA>"; lit "N/A"; lit "NA"; lit "NULL"; lit "NaN"; lit "None";
    lit "n/a"; lit "nan"; lit "null" ].

(** A cell of a text column written by [to_csv] and read back by
    [read_csv]. *)
Definition read_csv_cell (cell : option str) : option str :=
  match cell with
  | Some s => if existsb (PyStr.eqb s) na_values then None else Some s
  | None => None
  end.

End Pandas.

(** ** [match_plumber_licenses.py]: statistics, final order, call-ready
    file *)

Module MatchReport.

Import MatchPlumberLicenses.

(** A row of the table with the column the final sort reads. *)
Record table_row : Type := mkTableRow {
  columns : row;
  Total_Permits : Z
}.

(** The dictionary [match_stats]. *)
Record match_stats : Type := mkStats {
  exact_matches : nat;
  fuzzy_matches : nat;
  no_matches : nat;
  phone_added : nat;
  email_added : nat
}.

Definition count (b : bool) : nat := if b then 1 else 0.

(** The truth value of a cell of the license table in
    [if best_match['license_phone']:].  A text is true when it is not
    empty.  A missing phone or e-mail, [None] in the records of the
    extractor, is read from the table as [None], which is false, or as
    [NaN], which is true: pandas decides by its version and by the type
    it infers for the column.  [missing_is_true] tells which of the two
    the column gives.  Either way the value then written to the tracking
    column is a missing one, so [match_row] does not depend on it. *)
Definition cell_true (missing_is_true : bool) (cell : option str) : bool :=
  match cell with
  | Some s => truthy s
  | None => missing_is_true
  end.

(** The counters after the loop body ran on a row of company
    [permit_company]; [phone_nan] and [email_nan] tell how the two
    columns of the license table give a missing value. *)
Definition count_row (phone_nan email_nan : bool)
  (license_df : list license) (stats : match_stats)
  (permit_company : option str) : match_stats :=
  match best_match_for permit_company license_df with
  | (Some best_match, best_score) =>
      mkStats
        (exact_matches stats + count (Qeq_bool best_score 1%Q))
        (fuzzy_matches stats + count (negb (Qeq_bool best_score 1%Q)))
        (no_matches stats)
        (phone_added stats
         + count (cell_true phone_nan (license_phone best_match)))
        (email_added stats
         + count (cell_true email_nan (license_email best_match)))
  | (None, _) =>
      mkStats (exact_matches stats) (fuzzy_matches stats)
        (no_matches stats + 1) (phone_added stats) (email_added stats)
  end.

(** [match_stats] when the loop over the rows ends. *)
Definition match_statistics (phone_nan email_nan : bool)
  (df : list table_row) (license_df : list license) : match_stats :=
  fold_left
    (fun stats t =>
       count_row phone_nan email_nan license_df stats
         (Company_Name (columns t)))
    df (mkStats 0 0 0 0 0).

(** The sort keys [has_phone], [has_email], [has_both]. *)
Definition has_phone (t : table_row) : bool :=
  notna (Phone_Number (columns t)).

Definition has_email (t : table_row) : bool := notna (Email (columns t)).

Definition has_both (t : table_row) : bool := has_phone t && has_email t.

(** The order of [sort_values] on [has_both], [has_phone], [has_email],
    [Total_Permits], all descending: the first key on which two rows
    differ decides. *)
Definition sort_before (x y : table_row) : bool :=
  if negb (Bool.eqb (has_both x) (has_both y)) then has_both x
  else if negb (Bool.eqb (has_phone x) (has_phone y)) then has_phone x
  else if negb (Bool.eqb (has_email x) (has_email y)) then has_email x
  else (Total_Permits y <=? Total_Permits x)%Z.

(** The loop body and the column updates on a row of the table. *)
Definition update_table_row (license_df : list license) (t : table_row)
  : table_row :=
  mkTableRow (update_columns (match_row license_df (columns t)))
    (Total_Permits t).

(** The table written to [plumber_contacts_with_verified_info.csv]. *)
Definition verified_table (df : list table_row) (license_df : list license)
  : list table_row :=
  Pandas.sort_values sort_before (map (update_table_row license_df) df).

(** The call-ready table: the rows of the sorted table with a phone. *)
Definition call_ready (df : list table_row) (license_df : list license)
  : list table_row :=
  filter has_phone (verified_table df license_df).

End MatchReport.

(** ** [create_active_plumbers_with_contact_info.py]: the priority call
    list *)

Module PriorityList.

Import CreateActivePlumbers.

(** A row of the active table with the two columns the list reads. *)
Record plumber : Type := mkPlumber {
  contact_columns : contact;
  Total_Permits : Z;
  Days_Since_Last_Permit : option Z
}.

(** [Days_Since_Last_Permit <= 90]: false on a missing value. *)
Definition very_active (p : plumber) : bool :=
  match Days_Since_Last_Permit p with
  | Some d => (d <=? 90)%Z
  | None => false
  end.

(** Ascending order of a column with missing values last. *)
Definition days_before (x y : option Z) : bool :=
  match x, y with
  | Some a, Some b => (a <=? b)%Z
  | _, None => true
  | None, Some _ => false
  end.

(** The order of [sort_values] on [Total_Permits] descending, then
    [Days_Since_Last_Permit] ascending. *)
Definition priority_before (x y : plumber) : bool :=
  (Total_Permits y <? Total_Permits x)%Z
  || ((Total_Permits x =? Total_Permits y)%Z
      && days_before (Days_Since_Last_Permit x) (Days_Since_Last_Permit y)).

(** [priority_df]: the fifty first rows of the very active plumbers in
    that order. *)
Definition priority_list (active_df : list plumber) : list plumber :=
  firstn 50 (Pandas.sort_values priority_before (filter very_active active_df)).

End PriorityList.

(** ** [extract_plumber_contacts.py]: activity level *)

Module ExtractPlumberContacts.

(** [pd.cut] of the day count on the bins 0, 30, 90, 180, 365, infinity:
    the intervals are open on the left and closed on the right, and a
    count outside them, or a missing one, gets no label. *)
Definition activity_level (days : option Z) : option str :=
  match days with
  | None => None
  | Some d =>
      if (d <=? 0)%Z then None
      else if (d <=? 30)%Z then Some (lit "Very Active (< 30 days)")
      else if (d <=? 90)%Z then Some (lit "Active (30-90 days)")
      else if (d <=? 180)%Z then Some (lit "Moderate (90-180 days)")
      else if (d <=? 365)%Z then Some (lit "Low (180-365 days)")
      else Some (lit "Inactive (> 1 year)")
  end.

(** [Days_Since_Last_Permit <= 180], the filter of the active-only
    sheet. *)
Definition active_only (days : option Z) : bool :=
  match days with
  | Some d => (d <=? 180)%Z
  | None => false
  end.

End ExtractPlumberContacts.

(** * Vocabulary of the properties *)

Import MatchPlumberLicenses.
Import CreateActivePlumbers.

(** ** The two passes chained *)

(** The contact table as the matcher reads it back from the file written
    by the first pass: a cell that holds one of the texts [read_csv] takes
    for a missing value, such as the confidence [None], comes back
    missing; the four tracking columns start empty.  The columns are read
    as text: the conversion of a column that holds only numbers is left
    out. *)
Definition as_row (c : contact) : row :=
  mkRow (Pandas.read_csv_cell (Company_Name c))
    (Pandas.read_csv_cell (Contact_Person c))
    (Pandas.read_csv_cell (Phone_Number c))
    (Pandas.read_csv_cell (Email c))
    (Pandas.read_csv_cell (Address c))
    (Pandas.read_csv_cell (City c))
    (Pandas.read_csv_cell (Contact_Info_Source c))
    (Pandas.read_csv_cell (Contact_Confidence c))
    None None None None.

(** ** The scan of the matcher *)

(** Score and match flag of a license row against the permit name. *)
Definition row_score (permit_company : option str) (l : license) : Q :=
  score permit_company (Some (license_company l)).

Definition row_match (permit_company : option str) (l : license) : bool :=
  is_match permit_company (Some (license_company l)).

(** What the pair [(best_match, best_score)] knows about the rows
    already scanned. *)
Definition scan_inv (permit_company : option str) (scanned : list license)
  (best : option license * Q) : Prop :=
  match fst best with
  | None =>
      snd best = 0%Q
      /\ forall l, In l scanned -> row_match permit_company l = false
  | Some b =>
      snd best = row_score permit_company b
      /\ row_match permit_company b = true
      /\ exists before after,
          scanned = before ++ b :: after
          /\ (forall l, In l before ->
                (row_score permit_company l < row_score permit_company b)%Q)
          /\ (forall l, In l after ->
                (row_score permit_company l <= row_score permit_company b)%Q)
  end.

(** ** Matches of a pattern *)

(** [all_in cls u]: every character of [u] is in the class. *)
Definition all_in (cls : ascii -> bool) (u : str) : Prop :=
  Forall (fun c => cls c = true) u.

(** The text of a match of [p]: one segment per repetition, of a length
    within its bounds and of characters of its class. *)
Fixpoint shaped (p : Re.pattern) (t : str) : Prop :=
  match p with
  | [] => t = []
  | Re.Boundary :: p' => shaped p' t
  | Re.Rep cls lo hi :: p' =>
      exists u v,
        t = u ++ v
        /\ all_in cls u
        /\ lo <= length u
        /\ match hi with Some h => length u <= h | None => True end
        /\ shaped p' v
  end.

(** How many digits a match of a pattern holds: repetitions of digits of
    a fixed length count, repetitions of classes without digits do not. *)
Inductive digit_count : Re.pattern -> nat -> Prop :=
| dc_nil : digit_count [] 0
| dc_boundary (p : Re.pattern) (n : nat) :
    digit_count p n -> digit_count (Re.Boundary :: p) n
| dc_digits (cls : ascii -> bool) (k : nat) (p : Re.pattern) (n : nat) :
    (forall c, cls c = true -> is_digit c = true) ->
    digit_count p n -> digit_count (Re.Rep cls k (Some k) :: p) (k + n)
| dc_other (cls : ascii -> bool) (lo : nat) (hi : option nat)
    (p : Re.pattern) (n : nat) :
    (forall c, cls c = true -> is_digit c = false) ->
    digit_count p n -> digit_count (Re.Rep cls lo hi :: p) n.

(** The first pattern of the list that matches somewhere in the text, with
    its leftmost match: what the loop of [extract_phone_from_address]
    finds first. *)
Fixpoint first_match (patterns : list Re.pattern) (text : str)
  : option (nat * nat) :=
  match patterns with
  | [] => None
  | pattern :: rest =>
      match Re.search pattern text with
      | Some m => Some m
      | None => first_match rest text
      end
  end.


(** ** Normalized names *)

(** Characters that the first two steps of the normalizer leave alone,
    with the ampersand that the replacements may write. *)
Definition settled (c : ascii) : bool :=
  Ascii.eqb (upper_char c) c
  && (negb (in_set punctuation c) || Ascii.eqb c "&").

(** The words [split] returns: not empty, without a space. *)
Definition word (w : str) : Prop :=
  w <> [] /\ all_in (fun c => negb (is_space c)) w.

(** A long form is a key of [replacements] that is not its own value;
    [no_long_form y] tells that none of them occurs in [y]. *)
Definition no_long_form (y : str) : bool :=
  forallb
    (fun kv => PyStr.eqb (fst kv) (snd kv) || negb (contains y (fst kv)))
    replacements.

(** ** Blocks of the sequence matcher *)

(** A block that ends within the first [n] elements of [a]. *)
Definition ends_within (n : nat) (best : Difflib.Match) : Prop :=
  Difflib.m_a best + Difflib.m_size best <= n.

(** ** Rows and names used as examples *)

Definition acme : contact :=
  mkContact (Some (lit "Acme Plumbing, Inc.")) (Some (lit "John Smith"))
    (Some (lit "123 Main St 612-555-1212")) (Some (lit "Minneapolis"))
    None None None None.

Definition acme_without_phone : contact :=
  mkContact (Some (lit "Acme Plumbing, Inc.")) (Some (lit "John Smith"))
    (Some (lit "123 Main St")) (Some (lit "Minneapolis"))
    None None None None.

Definition abc_inc : option str := Some (lit "ABC Inc").

Definition abc_llc : license :=
  mkLicense (lit "ABC LLC") (Some (lit "612-555-1212")) None.

Definition abc_inc_license : license :=
  mkLicense (lit "ABC INC") (Some (lit "612-555-3434")) None.

Definition smith_and_sons : option str := Some (lit "Smith and Sons").

Definition acme_tab_company : option str :=
  Some (lit "Acme" ++ ["009"%char] ++ lit "Company").

Definition pipe_pipes : option str := Some (lit "Pipe Pipes").

Definition pipes_pipe : option str := Some (lit "Pipes Pipe").

Definition north_star : option str := Some (lit "North Star Plumbing").

Definition three_candidates : list license :=
  [ mkLicense (lit "Metro Plumbing") (Some (lit "612-555-0001")) None;
    mkLicense (lit "North Star Plumbing Inc") (Some (lit "612-555-0002")) None;
    mkLicense (lit "North Star Plumbing LLC") None (Some (lit "b@ns.com")) ].

Definition xyz_line : str :=
  lit "L101 PL00123 APPROVED XYZ MECHANICAL INC 123 MAIN ST 612-555-1212 info@xyz.com".

Definition xyz : license :=
  mkLicense (lit "XYZ MECHANICAL INC") (Some (lit "612-555-1212"))
    (Some (lit "info@xyz.com")).

Definition no_contact_line : str :=
  lit "L101 PL00456 APPROVED NO CONTACT PLUMBING 9 ELM ST".

Definition directory_page : str :=
  lit "License Type License # Status Applicant Name Address Phone Email"
  ++ [newline] ++ xyz_line
  ++ [newline] ++ no_contact_line
  ++ [newline] ++ lit "Page 1 of 12".

(** ** Vocabulary of the further properties *)

(** Characters other than whitespace. *)
Definition non_space (c : ascii) : bool := negb (is_space c).

(** [collapsed s in_run]: the runs of whitespace of [s], without those at
    its end, replaced by single spaces. *)
Definition collapsed (s : str) (in_run : bool) : str :=
  Re.sub_runs_from is_space (lit " ") (rstrip s) in_run.

(** A text without whitespace at either end whose whitespace is single
    spaces only. *)
Definition single_spaced (y : str) : Prop :=
  strip y = y /\ Re.sub_runs is_space (lit " ") y = y.

(** Names made of whitespace and punctuation only. *)
Definition blank_char (c : ascii) : bool := is_space c || in_set punctuation c.

(** A missing name counts as blank. *)
Definition blank (name : option str) : bool :=
  match name with None => true | Some n => forallb blank_char n end.

(** The [k] elements that end before position [i] of [A] are the [k]
    elements that end before position [j] of [B]. *)
Definition ends_match (A B : str) (k i j : nat) : Prop :=
  k <= i /\ k <= j
  /\ firstn k (skipn (i - k) A) = firstn k (skipn (j - k) B).

(** A block inside both sequences on which they agree. *)
Definition common_block (A B : str) (m : Difflib.Match) : Prop :=
  Difflib.m_a m + Difflib.m_size m <= length A
  /\ Difflib.m_b m + Difflib.m_size m <= length B
  /\ firstn (Difflib.m_size m) (skipn (Difflib.m_a m) A)
     = firstn (Difflib.m_size m) (skipn (Difflib.m_b m) B).

(** The format [ddd-ddd-dddd]. *)
Definition dashed_phone_shape (phone : str) : bool :=
  match phone with
  | [d1; d2; d3; h1; d4; d5; d6; h2; d7; d8; d9; d10] =>
      Ascii.eqb h1 "-" && Ascii.eqb h2 "-"
      && forallb is_digit [d1; d2; d3; d4; d5; d6; d7; d8; d9; d10]
  | _ => false
  end.

(** Characters an e-mail of a record is made of, besides [@]. *)
Definition address_char (c : ascii) : bool :=
  is_lower c || is_digit c || in_set (lit "._%+-") c.

(** The shape [local@domain.tld] of the e-mail of a record. *)
Definition email_shape (e : str) : Prop :=
  exists local domain tld,
    e = local ++ lit "@" ++ domain ++ lit "." ++ tld
    /\ local <> [] /\ domain <> [] /\ 2 <= length tld
    /\ all_in address_char local
    /\ all_in address_char domain
    /\ all_in is_lower tld.

(** Characters of a domain candidate. *)
Definition domain_char (c : ascii) : bool :=
  is_lower c || is_digit c || Ascii.eqb c "_" || Ascii.eqb c "-".

(** Characters of a generated e-mail: no whitespace, no capital. *)
Definition plain_char (c : ascii) : bool :=
  negb (is_space c) && negb (is_upper c).

(** A row of the first pass with a phone taken from the address. *)
Definition abc_row : row :=
  mkRow abc_inc (Some (lit "Al Smith")) (Some (lit "(612) 555-9999"))
    (Some (lit "al.smith@abc.com")) None None
    (Some (lit "Extracted from Address")) (Some (lit "Medium"))
    None None None None.

(** * Lemmas and theorems *)

(** ** Basic facts about the string primitives *)

Lemma str_eqb_eq (a b : str) : PyStr.eqb a b = true <-> a = b.
Proof.
  revert b; induction a as [|x a IH]; intros [|y b]; simpl;
    try (split; [discriminate | discriminate]); try tauto.
  rewrite andb_true_iff, Ascii.eqb_eq, IH.
  split; [intros [-> ->]; reflexivity | intros H; inversion H; auto].
Qed.

Lemma str_eqb_refl (a : str) : PyStr.eqb a a = true.
Proof. apply str_eqb_eq; reflexivity. Qed.

Lemma str_eqb_sym (a b : str) : PyStr.eqb a b = PyStr.eqb b a.
Proof.
  destruct (PyStr.eqb a b) eqn:E.
  - apply str_eqb_eq in E; subst; symmetry; apply str_eqb_refl.
  - destruct (PyStr.eqb b a) eqn:E'; [|reflexivity].
    apply str_eqb_eq in E'; subst; rewrite str_eqb_refl in E; discriminate.
Qed.

Lemma startswith_app (p t : str) : startswith (p ++ t) p = true.
Proof.
  induction p as [|x p IH]; simpl; [reflexivity|].
  rewrite Ascii.eqb_refl; exact IH.
Qed.

Lemma startswith_split (s p : str) :
  startswith s p = true -> s = p ++ skipn (length p) s.
Proof.
  revert s; induction p as [|x p IH]; intros [|y s]; simpl; try discriminate;
    try reflexivity.
  rewrite andb_true_iff, Ascii.eqb_eq; intros [-> H].
  f_equal; apply IH; exact H.
Qed.

(** ** C8: the normalizer on a name with an apostrophe *)

(** C8 (as stated, refuted): normalizing [Bob's Plumbing, Inc.] does not
    give [BOBS PLUMBING INC]. *)
Lemma normalize_bobs_not_joined :
  normalize_company_name (Some (lit "Bob's Plumbing, Inc."))
  <> lit "BOBS PLUMBING INC".
Proof. vm_compute; discriminate. Qed.

(** C8 (amended): the apostrophe, like every character of the punctuation
    class, is replaced by a space, so normalizing [Bob's Plumbing, Inc.]
    gives [BOB S PLUMBING INC]. *)
Theorem normalize_bobs :
  normalize_company_name (Some (lit "Bob's Plumbing, Inc."))
  = lit "BOB S PLUMBING INC".
Proof. vm_compute; reflexivity. Qed.

(** ** C9: the entity test of the e-mail heuristic *)

(** C9 (as stated, refuted): a one-word contact person that contains
    [trust] still gets the generic address. *)
Lemma generate_email_single_part_entity :
  looks_like_entity (lit "SmithTrust") = true
  /\ generate_email (Some (lit "Acme Plumbing, Inc.")) (Some (lit "SmithTrust"))
       (Some (lit "Minneapolis"))
     = Some (lit "info@acme.com").
Proof. vm_compute; split; reflexivity. Qed.

(** C9 (amended): when the contact person has at least two
    whitespace-separated parts and contains one of [trust], [estate],
    [llc], [inc] in any letter case, no e-mail is generated, whatever the
    company name.  A contact person with fewer than two parts is not
    tested: whenever the domain candidate of the company is acceptable,
    that is, at least three characters long and not one of the generic
    names, the result is the generic address [info@] of that domain. *)
Theorem generate_email_rejects_entities
  (company_name city : option str) (contact_person : str) :
  (2 <= length (split contact_person) ->
   looks_like_entity contact_person = true ->
   generate_email company_name (Some contact_person) city = None)
  /\ (length (split contact_person) < 2 ->
      forall company,
        company_name = Some company ->
        3 <= length (company_clean_of company) ->
        ~ In (company_clean_of company) generic_names ->
        generate_email company_name (Some contact_person) city
        = Some (lit "info@" ++ company_clean_of company ++ lit ".com")).
Proof.
  split.
  - intros Hparts Hentity.
    unfold generate_email.
    destruct company_name as [company|]; [|reflexivity].
    destruct (_ || _); [reflexivity|].
    apply Nat.leb_le in Hparts; rewrite Hparts, Hentity; reflexivity.
  - intros Hparts company -> Hlen Hgeneric.
    unfold generate_email; cbv zeta.
    apply Nat.ltb_ge in Hlen; rewrite Hlen; cbn [orb].
    destruct (existsb (PyStr.eqb (company_clean_of company)) generic_names)
      eqn:Hex.
    + apply existsb_exists in Hex; destruct Hex as (g & Hg & Heq).
      apply str_eqb_eq in Heq; subst g; contradiction.
    + apply Nat.leb_gt in Hparts; rewrite Hparts; reflexivity.
Qed.

Lemma generate_email_rejects_entities_witness :
  generate_email (Some (lit "Acme Plumbing, Inc."))
    (Some (lit "Smith Family TRUST")) (Some (lit "Minneapolis")) = None
  /\ generate_email (Some (lit "Acme Plumbing, Inc."))
       (Some (lit "SmithTrust")) (Some (lit "Minneapolis"))
     = Some (lit "info@acme.com").
Proof.
  split.
  - apply (proj1 (generate_email_rejects_entities
                    (Some (lit "Acme Plumbing, Inc."))
                    (Some (lit "Minneapolis")) (lit "Smith Family TRUST"))).
    + vm_compute; lia.
    + vm_compute; reflexivity.
  - apply (proj2 (generate_email_rejects_entities
                    (Some (lit "Acme Plumbing, Inc."))
                    (Some (lit "Minneapolis")) (lit "SmithTrust"))
             ltac:(vm_compute; lia) (lit "Acme Plumbing, Inc.") eq_refl).
    + vm_compute; lia.
    + vm_compute; intros [H|[H|[H|[H|[]]]]]; discriminate H.
Defined.

(** ** C7: the [Generated] label and the phone column *)

Lemma label_generated_not_existing : generated <> existing_database.
Proof. vm_compute; discriminate. Qed.

Lemma label_generated_not_extracted : generated <> extracted_from_address.
Proof. vm_compute; discriminate. Qed.

(** C7: whatever the lookup of existing data returns, a row of the first
    pass whose source is [Generated] has no phone, and its e-mail is the
    one the heuristic produced. *)
Theorem generated_source_has_no_phone
  (search : option str -> option str * option str) (r : contact) :
  Contact_Info_Source (populate_with search r) = Some generated ->
  Phone_Number (populate_with search r) = None
  /\ Email (populate_with search r)
     = generate_email (Company_Name r) (Contact_Person r) (City r).
Proof.
  unfold populate_with.
  destruct (search (Company_Name r)) as [existing_phone existing_email].
  destruct (truthy_opt existing_phone);
    [| destruct (truthy_opt (extract_phone_from_address (Address r)))];
    destruct (truthy_opt existing_email); simpl;
    try destruct (truthy_opt (generate_email _ _ _)); simpl;
    intros H; inversion H as [H'];
    try (symmetry in H'; first [ apply label_generated_not_existing in H'
                               | apply label_generated_not_extracted in H' ];
         contradiction);
    auto.
Qed.

Lemma generated_source_has_no_phone_witness :
  Phone_Number (populate acme_without_phone) = None
  /\ Email (populate acme_without_phone) = Some (lit "john.smith@acme.com").
Proof.
  destruct (generated_source_has_no_phone search_existing_contact_data
              acme_without_phone) as [Hphone Hemail].
  - vm_compute; reflexivity.
  - split; [exact Hphone|].
    unfold populate; rewrite Hemail; vm_compute; reflexivity.
Defined.

(** The same holds after the license pass: there the phone column is the
    license phone, and a row that keeps the label [Generated] has none. *)
Lemma generated_source_has_no_phone_after_update (r : row) :
  MatchPlumberLicenses.Contact_Info_Source (update_columns r)
  = Some (lit "Generated") ->
  MatchPlumberLicenses.Phone_Number (update_columns r) = None.
Proof.
  unfold update_columns; simpl.
  destruct (License_Phone r); simpl; [|reflexivity].
  intros H; inversion H.
Qed.

(** ** C2: the phone column after the license pass *)

(** The phone column after the update is the license phone, whatever the
    row held before. *)
Lemma update_columns_phone (r : row) :
  MatchPlumberLicenses.Phone_Number (update_columns r) = License_Phone r.
Proof. reflexivity. Qed.

(** The confidence [None] of a row without contact data does not
    survive the file: the matcher reads it back as a missing value. *)
Lemma confidence_none_read_back_missing :
  Pandas.read_csv_cell (Some (lit "None")) = None
  /\ Pandas.read_csv_cell (Some (lit "Medium")) = Some (lit "Medium").
Proof. vm_compute; split; reflexivity. Qed.

(** The e-mail column, by contrast, falls back on what the row held. *)
Lemma update_columns_email (r : row) :
  MatchPlumberLicenses.Email (update_columns r)
  = match License_Email r with
    | Some e => Some e
    | None => MatchPlumberLicenses.Email r
    end.
Proof.
  unfold update_columns; simpl; destruct (License_Email r); reflexivity.
Qed.

(** C2 (the code at the failing input): a contractor whose phone came from
    the address and who matches no license record has that phone after the
    first pass and none after the license pass, although the source still
    says [Extracted from Address], while the generated e-mail is kept. *)
Theorem phone_lost_without_license_match :
  let first := populate acme in
  let merged := update_columns (match_row [] (as_row first)) in
  Phone_Number first = Some (lit "(612) 555-1212")
  /\ MatchPlumberLicenses.Phone_Number merged = None
  /\ MatchPlumberLicenses.Contact_Info_Source merged
     = Some (lit "Extracted from Address")
  /\ MatchPlumberLicenses.Email merged = Some (lit "john.smith@acme.com").
Proof. vm_compute; repeat split; reflexivity. Qed.

(** ** C3: which pairs are counted as exact *)

(** C3 (the code at the failing input): [ABC Inc] and [ABC LLC] have
    different normalized names, the sequence ratio of those names is below
    the threshold and neither contains the other, yet the core-name
    fallback returns the score 1.0 and the pair is counted as exact.
    Listed before the license [ABC INC], whose normalized name is the
    permit's, the license [ABC LLC] is even the one selected. *)
Theorem core_fallback_counts_as_exact :
  PyStr.eqb (normalize_company_name abc_inc)
    (normalize_company_name (Some (license_company abc_llc))) = false
  /\ fuzzy_match_companies abc_inc (Some (license_company abc_llc))
       Score.threshold = (true, (6 # 6)%Q)
  /\ decision_of (best_match_for abc_inc [abc_llc]) = Exact
  /\ fst (best_match_for abc_inc [abc_llc; abc_inc_license]) = Some abc_llc.
Proof. vm_compute; repeat split; reflexivity. Qed.

(** ** C4 and C5: names on which idempotence and symmetry fail *)

Example normalize_smith_and_sons :
  normalize_company_name smith_and_sons = lit "SMITH & SONS"
  /\ normalize_company_name (Some (normalize_company_name smith_and_sons))
     = lit "SMITH SONS".
Proof. vm_compute; split; reflexivity. Qed.

Example normalize_acme_tab_company :
  normalize_company_name acme_tab_company = lit "ACME COMPANY"
  /\ normalize_company_name (Some (normalize_company_name acme_tab_company))
     = lit "ACME CO".
Proof. vm_compute; split; reflexivity. Qed.

(** C4 (as stated, refuted): the ampersand written by the replacement of
    [ AND ] is removed by a second normalization, and a long form that a
    tab kept apart from the name is only replaced by a second
    normalization. *)
Lemma normalize_not_idempotent :
  normalize_company_name (Some (normalize_company_name smith_and_sons))
  <> normalize_company_name smith_and_sons
  /\ normalize_company_name (Some (normalize_company_name acme_tab_company))
     <> normalize_company_name acme_tab_company.
Proof. vm_compute; split; discriminate. Qed.

Example fuzzy_pipe_pipes :
  fuzzy_match_companies pipe_pipes pipes_pipe Score.threshold
  = (true, (18 # 20)%Q)
  /\ fuzzy_match_companies pipes_pipe pipe_pipes Score.threshold
     = (false, (10 # 20)%Q).
Proof. vm_compute; split; reflexivity. Qed.

(** C5 (as stated, refuted): the two orders of one pair of names give
    different scores, one above the threshold and one below. *)
Lemma score_not_symmetric :
  ~ (score pipe_pipes pipes_pipe == score pipes_pipe pipe_pipes)%Q.
Proof. vm_compute; intros H; discriminate H. Qed.

(** ** C1: the scan keeps the first candidate of maximal score *)

Lemma nine_tenths_above_threshold : (Score.threshold <= Score.nine_tenths)%Q.
Proof. vm_compute; discriminate. Qed.

Lemma ge_true (x y : Q) : Score.ge x y = true -> (y <= x)%Q.
Proof. unfold Score.ge; apply Qle_bool_iff. Qed.

Lemma ge_false (x y : Q) : Score.ge x y = false -> (x < y)%Q.
Proof.
  unfold Score.ge; intros H; apply Qnot_le_lt; intros Hle.
  apply Qle_bool_iff in Hle; congruence.
Qed.

Lemma lt_true (x y : Q) : Score.lt x y = true -> (x < y)%Q.
Proof.
  unfold Score.lt; intros H; apply negb_true_iff in H.
  apply ge_false; exact H.
Qed.

Lemma lt_false (x y : Q) : Score.lt x y = false -> (y <= x)%Q.
Proof.
  unfold Score.lt; intros H; apply negb_false_iff in H.
  apply Qle_bool_iff; exact H.
Qed.

(** The four ways out of the scorer. *)
Lemma fuzzy_cases (a b : option str) (threshold : Q) :
  let r := fuzzy_match_companies a b threshold in
  r = (true, 1%Q)
  \/ (fst r = true /\ Score.ge (snd r) threshold = true)
  \/ (fst r = true /\ Score.ge (snd r) Score.nine_tenths = true)
  \/ (fst r = false /\ Score.ge (snd r) threshold = false).
Proof.
  unfold fuzzy_match_companies.
  destruct (PyStr.eqb _ _); [left; reflexivity|].
  match goal with
  | |- context [Score.ge ?s threshold] => set (similarity := s)
  end.
  destruct (Score.ge similarity threshold) eqn:Hge;
    [right; left; split; [reflexivity | exact Hge]|].
  destruct (truthy _ && truthy _);
    [| right; right; right; split; [reflexivity | exact Hge]].
  match goal with
  | |- context [Score.ge ?s Score.nine_tenths] => set (core_similarity := s)
  end.
  destruct (Score.ge core_similarity Score.nine_tenths) eqn:Hcore.
  - right; right; left; split; [reflexivity | exact Hcore].
  - right; right; right; split; [reflexivity | exact Hge].
Qed.

(** The flag of the scorer says on which side of the threshold the
    score lies. *)
Lemma flag_true_score (a b : option str) :
  is_match a b = true -> (Score.threshold <= score a b)%Q.
Proof.
  unfold is_match, score.
  destruct (fuzzy_cases a b Score.threshold)
    as [-> | [[_ H] | [[_ H] | [-> _]]]]; intros Hm.
  - vm_compute; discriminate.
  - apply ge_true; exact H.
  - eapply Qle_trans;
      [apply nine_tenths_above_threshold | apply ge_true; exact H].
  - discriminate.
Qed.

Lemma flag_false_score (a b : option str) :
  is_match a b = false -> (score a b < Score.threshold)%Q.
Proof.
  unfold is_match, score.
  destruct (fuzzy_cases a b Score.threshold)
    as [-> | [[-> _] | [[-> _] | [_ H]]]]; intros Hm; try discriminate.
  apply ge_false; exact H.
Qed.

Lemma scan_step_eq (permit_company : option str) (best : option license * Q)
  (l : license) :
  scan_step permit_company best l
  = if row_match permit_company l
       && Score.lt (snd best) (row_score permit_company l)
    then (Some l, row_score permit_company l) else best.
Proof.
  unfold scan_step, row_match, row_score, is_match, score.
  destruct (fuzzy_match_companies _ _ _); reflexivity.
Qed.

Lemma scan_inv_step (permit_company : option str) (scanned : list license)
  (best : option license * Q) (l : license) :
  scan_inv permit_company scanned best ->
  scan_inv permit_company (scanned ++ [l]) (scan_step permit_company best l).
Proof.
  intros Hinv; rewrite scan_step_eq.
  destruct best as [[b|] best_score]; unfold scan_inv in *; simpl in *.
  - destruct Hinv as (-> & Hb & before & after & -> & Hbefore & Hafter).
    destruct (row_match permit_company l) eqn:Hl; simpl;
      [destruct (Score.lt (row_score permit_company b)
                  (row_score permit_company l)) eqn:Hlt; simpl|].
    + apply lt_true in Hlt.
      repeat split; auto.
      exists (before ++ b :: after), []; repeat split; [| contradiction].
      intros x Hx; apply in_app_or in Hx; destruct Hx as [Hx|[<-|Hx]].
      * eapply Qlt_trans; [apply Hbefore; exact Hx | exact Hlt].
      * exact Hlt.
      * eapply Qle_lt_trans; [apply Hafter; exact Hx | exact Hlt].
    + apply lt_false in Hlt.
      repeat split; auto.
      exists before, (after ++ [l]); rewrite <- app_assoc; simpl.
      repeat split; auto.
      intros x Hx; apply in_app_or in Hx; destruct Hx as [Hx|[<-|[]]]; auto.
    + repeat split; auto.
      exists before, (after ++ [l]); rewrite <- app_assoc; simpl.
      repeat split; auto.
      intros x Hx; apply in_app_or in Hx; destruct Hx as [Hx|[<-|[]]]; auto.
      apply Qlt_le_weak; eapply Qlt_le_trans;
        [apply flag_false_score; exact Hl | apply flag_true_score; exact Hb].
  - destruct Hinv as (-> & Hnone).
    destruct (row_match permit_company l) eqn:Hl; simpl.
    + assert (Hpos : Score.lt 0 (row_score permit_company l) = true).
      { unfold Score.lt; apply negb_true_iff.
        destruct (Qle_bool (row_score permit_company l) 0) eqn:Hle;
          [|reflexivity].
        apply Qle_bool_iff in Hle.
        pose proof (flag_true_score _ _ Hl) as Hth.
        exfalso; apply (Qle_not_lt _ _ (Qle_trans _ _ _ Hth Hle)).
        vm_compute; reflexivity. }
      rewrite Hpos; simpl; repeat split; auto.
      exists scanned, []; repeat split; [| contradiction].
      intros x Hx; eapply Qlt_le_trans;
        [apply flag_false_score; apply Hnone; exact Hx
        | apply flag_true_score; exact Hl].
    + split; [reflexivity|].
      intros x Hx; apply in_app_or in Hx; destruct Hx as [Hx|[<-|[]]]; auto.
Qed.

Lemma scan_inv_fold (permit_company : option str)
  (todo scanned : list license) (best : option license * Q) :
  scan_inv permit_company scanned best ->
  scan_inv permit_company (scanned ++ todo)
    (fold_left (scan_step permit_company) todo best).
Proof.
  revert scanned best; induction todo as [|l todo IH]; intros scanned best H.
  - rewrite app_nil_r; exact H.
  - simpl; replace (scanned ++ l :: todo) with ((scanned ++ [l]) ++ todo)
      by (rewrite <- app_assoc; reflexivity).
    apply IH, scan_inv_step, H.
Qed.

Lemma best_match_for_inv (permit_company : option str)
  (license_df : list license) :
  scan_inv permit_company license_df
    (best_match_for permit_company license_df).
Proof.
  apply (scan_inv_fold permit_company license_df [] (None, 0%Q)).
  split; [reflexivity | contradiction].
Qed.


(** C1: the scan ends with no match exactly when every candidate scores
    below 0.85 (in particular on an empty list); otherwise the selected
    candidate carries its own score, that score is at least 0.85 and is
    the greatest of the list, and every candidate listed before the
    selected one scores strictly less, so that among candidates of equal
    maximal score the first one is selected. *)
Theorem matcher_selects_first_global_maximum
  (permit_company : option str) (license_df : list license) :
  (decision_of (best_match_for permit_company license_df) = NoMatch
   <-> forall l, In l license_df ->
                 (row_score permit_company l < Score.threshold)%Q)
  /\ match best_match_for permit_company license_df with
     | (None, _) => True
     | (Some best_match, best_score) =>
         best_score = row_score permit_company best_match
         /\ (Score.threshold <= best_score)%Q
         /\ exists before after,
             license_df = before ++ best_match :: after
             /\ (forall l, In l before ->
                           (row_score permit_company l < best_score)%Q)
             /\ (forall l, In l after ->
                           (row_score permit_company l <= best_score)%Q)
     end.
Proof.
  pose proof (best_match_for_inv permit_company license_df) as Hinv.
  unfold scan_inv in Hinv.
  destruct (best_match_for permit_company license_df) as [[b|] best_score];
    simpl in *.
  - destruct Hinv as (-> & Hb & before & after & Hdf & Hbefore & Hafter).
    pose proof (flag_true_score _ _ Hb) as Hth.
    split.
    + split; [destruct (Qeq_bool _ _); discriminate|].
      intros Hall; exfalso.
      apply (Qle_not_lt _ _ Hth), Hall.
      rewrite Hdf; apply in_or_app; right; left; reflexivity.
    + repeat split; auto.
      exists before, after; auto.
  - destruct Hinv as (_ & Hnone).
    split; [|exact I].
    split; [|reflexivity].
    intros _ l Hl; apply flag_false_score, Hnone, Hl.
Qed.

(** The tracking columns written for a row are the company and the score
    the scan ended with. *)
Lemma match_row_columns (license_df : list license) (r : row) :
  Matched_License_Company (match_row license_df r)
  = option_map license_company
      (fst (best_match_for (MatchPlumberLicenses.Company_Name r) license_df))
  /\ Match_Confidence (match_row license_df r)
     = match best_match_for (MatchPlumberLicenses.Company_Name r) license_df with
       | (Some _, best_score) => Some best_score
       | (None, _) => None
       end.
Proof.
  unfold match_row.
  destruct (best_match_for _ license_df) as [[b|] best_score];
    split; reflexivity.
Qed.

(** Two candidates contain the permit name and tie at 38/42; the first
    of them in the list is kept. *)
Example tie_keeps_first :
  row_score north_star (nth 1 three_candidates abc_llc)
  = row_score north_star (nth 2 three_candidates abc_llc)
  /\ option_map license_company
       (fst (best_match_for north_star three_candidates))
     = Some (lit "North Star Plumbing Inc").
Proof. vm_compute; split; reflexivity. Qed.

Lemma matcher_selects_first_global_maximum_witness :
  ~ (forall l, In l three_candidates ->
               (row_score north_star l < Score.threshold)%Q).
Proof.
  intros Hall.
  destruct (matcher_selects_first_global_maximum north_star three_candidates)
    as [[_ Hnone] _].
  specialize (Hnone Hall).
  vm_compute in Hnone; discriminate Hnone.
Defined.

(** ** C5: the scorer is symmetric up to the library ratio *)

(** C5 (amended): the order of the two names only matters through the
    sequence ratio of the library: when the ratio of the two normalized
    names and the ratio of the two core names do not depend on the order
    of their arguments, flag and score are the same in both orders. *)
Theorem score_symmetric_up_to_ratio (a b : option str) (threshold : Q) :
  Difflib.ratio (normalize_company_name a) (normalize_company_name b)
  = Difflib.ratio (normalize_company_name b) (normalize_company_name a) ->
  Difflib.ratio (core_of (normalize_company_name a))
    (core_of (normalize_company_name b))
  = Difflib.ratio (core_of (normalize_company_name b))
      (core_of (normalize_company_name a)) ->
  fuzzy_match_companies a b threshold = fuzzy_match_companies b a threshold.
Proof.
  intros Hnorm Hcore; unfold fuzzy_match_companies.
  rewrite (str_eqb_sym (normalize_company_name b)), Hnorm, Hcore.
  rewrite (orb_comm (contains (normalize_company_name a) _)).
  rewrite (andb_comm (truthy (core_of (normalize_company_name b)))).
  reflexivity.
Qed.

Lemma score_symmetric_up_to_ratio_witness :
  fuzzy_match_companies (Some (lit "ABC Plumbing LLC"))
    (Some (lit "ABC Plumbing")) Score.threshold
  = fuzzy_match_companies (Some (lit "ABC Plumbing"))
      (Some (lit "ABC Plumbing LLC")) Score.threshold.
Proof.
  apply score_symmetric_up_to_ratio; vm_compute; reflexivity.
Defined.

(** ** C6: what the directory extractor emits *)

Lemma find_absent (s p : str) : contains s p = false -> find s p = (-1)%Z.
Proof.
  unfold contains, find; destruct (find_from s p 0); [discriminate | reflexivity].
Qed.

Lemma in_option_list {A : Type} (o : option A) (x : A) :
  In x (option_list o) -> o = Some x.
Proof.
  destruct o as [y|]; simpl; [intros [<-|[]]; reflexivity | intros []].
Qed.

(** A record is appended for a line exactly under the tests of the loop
    body. *)
Lemma extract_line_some (line : str) (r : license) :
  extract_line line = Some r ->
  is_header line = false
  /\ startswith (strip line) marker = true
  /\ company_of line (phone_of line) (email_of line) = Some (license_company r)
  /\ license_phone r = phone_of line
  /\ license_email r = email_of line
  /\ truthy (license_company r) = true
  /\ (truthy_opt (license_phone r) = true \/ truthy_opt (license_email r) = true).
Proof.
  unfold extract_line.
  destruct (is_header line); [discriminate|].
  destruct (startswith (strip line) marker); [|discriminate].
  destruct (company_of line (phone_of line) (email_of line)) as [company|];
    [|discriminate].
  destruct (truthy company) eqn:Hc; [|discriminate].
  destruct (truthy_opt (phone_of line) || truthy_opt (email_of line)) eqn:Hpe;
    [|discriminate].
  simpl; intros H; inversion H; subst; simpl.
  apply orb_true_iff in Hpe; repeat split; auto.
Qed.

(** C6: every record of the extractor comes from a line of some page that
    starts with the marker [L101] once stripped, that is not a header
    line, and from which that record is built; its company name is not
    empty and its phone or its e-mail is present and not empty.  And a
    line gives no record when it lacks the marker, or the status marker
    [APPROVED], or a company name, or both phone and e-mail.  The
    extractor is a total function: none of these cases is an error. *)
Theorem extracted_records_wellformed (pages : list str) :
  (forall r, In r (extract_license_data_from_pdf pages) ->
     exists text line,
       In text pages /\ In line (split_on newline text)
       /\ extract_line line = Some r
       /\ startswith (strip line) marker = true
       /\ license_company r <> []
       /\ (truthy_opt (license_phone r) = true
           \/ truthy_opt (license_email r) = true))
  /\ (forall line,
        startswith (strip line) marker = false
        \/ contains line status_marker = false
        \/ company_of line (phone_of line) (email_of line) = Some []
        \/ (phone_of line = None /\ email_of line = None) ->
        extract_line line = None).
Proof.
  split.
  - intros r Hr; unfold extract_license_data_from_pdf in Hr.
    apply in_flat_map in Hr; destruct Hr as (text & Htext & Hr).
    apply in_flat_map in Hr; destruct Hr as (line & Hline & Hr).
    apply in_option_list in Hr.
    exists text, line.
    destruct (extract_line_some line r Hr)
      as (_ & Hmarker & _ & _ & _ & Hcompany & Hcontact).
    repeat split; auto.
    intros Hnil; rewrite Hnil in Hcompany; discriminate.
  - intros line H; unfold extract_line.
    destruct (is_header line); [reflexivity|].
    destruct H as [H | [H | [H | [Hp He]]]].
    + rewrite H; reflexivity.
    + destruct (startswith (strip line) marker); [|reflexivity].
      unfold company_of; rewrite (find_absent _ _ H); reflexivity.
    + destruct (startswith (strip line) marker); [|reflexivity].
      rewrite H; reflexivity.
    + destruct (startswith (strip line) marker); [|reflexivity].
      rewrite Hp, He.
      destruct (company_of line None None); [|reflexivity].
      rewrite andb_false_r; reflexivity.
Qed.

Example extract_directory_page :
  extract_license_data_from_pdf [directory_page] = [xyz].
Proof. vm_compute; reflexivity. Qed.

Lemma extracted_records_wellformed_witness :
  (exists text line,
     In text [directory_page] /\ In line (split_on newline text)
     /\ extract_line line = Some xyz
     /\ startswith (strip line) marker = true
     /\ license_company xyz <> []
     /\ (truthy_opt (license_phone xyz) = true
         \/ truthy_opt (license_email xyz) = true))
  /\ extract_line (lit "Page 1 of 12") = None
  /\ extract_line no_contact_line = None.
Proof.
  destruct (extracted_records_wellformed [directory_page]) as [Hsome Hnone].
  split; [|split].
  - apply Hsome; vm_compute; left; reflexivity.
  - apply Hnone; left; vm_compute; reflexivity.
  - apply Hnone; right; right; right; vm_compute; split; reflexivity.
Defined.

(** ** C10: the phone taken from an address *)

(** Facts about the matcher: what a match looks like. *)

Section Matching.

Import Re.

Lemma run_le_hi (cls : ascii -> bool) (h : nat) (s : str) :
  run cls (Some h) s <= h.
Proof.
  revert h; induction s as [|c s IH]; intros h; simpl; [lia|].
  destruct (cls c); [|lia].
  destruct h as [|h]; [lia|].
  specialize (IH h); lia.
Qed.

Lemma run_firstn (cls : ascii -> bool) (hi : option nat) (s : str) (k : nat) :
  k <= run cls hi s -> all_in cls (firstn k s) /\ length (firstn k s) = k.
Proof.
  revert hi k; induction s as [|c s IH]; intros hi k; simpl.
  - intros Hk; assert (k = 0) by lia; subst; split; [constructor | reflexivity].
  - destruct k as [|k]; [intros _; split; [constructor | reflexivity]|].
    destruct (cls c) eqn:Hc; [|lia].
    destruct hi as [[|h]|]; [lia | |]; intros Hk;
      (destruct (IH _ k ltac:(apply le_S_n; exact Hk)) as [Hall Hlen];
       split; [constructor; assumption | simpl; rewrite Hlen; reflexivity]).
Qed.

Lemma first_down_some (f : nat -> option nat) (lo k r : nat) :
  lo <= k -> first_down f lo k = Some r ->
  exists k', lo <= k' /\ k' <= k /\ f k' = Some r.
Proof.
  induction k as [|k IH]; simpl; intros Hlo.
  - destruct (f 0) eqn:Hf; [|discriminate].
    intros H; exists 0; rewrite Hf; auto.
  - destruct (f (S k)) eqn:Hf; [intros H; exists (S k); rewrite Hf; auto|].
    destruct (lo <=? k) eqn:Hle; [|discriminate].
    apply Nat.leb_le in Hle; intros H.
    destruct (IH Hle H) as (k' & H1 & H2 & H3); exists k'; auto.
Qed.

Lemma firstn_plus (s : str) (k n : nat) :
  firstn (k + n) s = firstn k s ++ firstn n (skipn k s).
Proof.
  revert s; induction k as [|k IH]; intros [|c s]; simpl; try reflexivity.
  - destruct n; reflexivity.
  - rewrite IH; reflexivity.
Qed.

Lemma match_here_shaped (p : pattern) :
  forall prev s n, match_here p prev s = Some n -> shaped p (firstn n s).
Proof.
  induction p as [|[cls lo hi|] p IH]; intros prev s n; simpl.
  - intros H; inversion H; reflexivity.
  - destruct (run cls hi s <? lo) eqn:Hm; [discriminate|].
    apply Nat.ltb_ge in Hm; intros H.
    apply first_down_some in H; [|exact Hm].
    destruct H as (k & Hlo & Hk & H).
    destruct (match_here p (prev_at prev s k) (skipn k s)) as [n'|] eqn:Hrest;
      [|discriminate].
    inversion H; subst n.
    destruct (run_firstn cls hi s k Hk) as [Hall Hlen].
    exists (firstn k s), (firstn n' (skipn k s)).
    rewrite Hlen; repeat split; auto using firstn_plus.
    + destruct hi as [h|]; [|exact I].
      pose proof (run_le_hi cls h s); lia.
    + eapply IH; exact Hrest.
  - destruct (at_boundary prev s); [|discriminate].
    apply IH.
Qed.

Lemma search_from_shaped (p : pattern) :
  forall s prev pos m,
    search_from p prev s pos = Some m ->
    pos <= fst m /\ shaped p (firstn (snd m) (skipn (fst m - pos) s)).
Proof.
  induction s as [|c s IH]; intros prev pos m; simpl.
  - destruct (match_here p prev []) as [n|] eqn:H; [|discriminate].
    intros E; inversion E; subst; simpl; rewrite Nat.sub_diag; simpl.
    split; [lia | apply (match_here_shaped p prev [] n H)].
  - destruct (match_here p prev (c :: s)) as [n|] eqn:H.
    + intros E; inversion E; subst; simpl; rewrite Nat.sub_diag.
      split; [lia | apply (match_here_shaped p prev (c :: s) n H)].
    + intros E; destruct (IH _ _ _ E) as [Hpos Hshape].
      split; [lia|].
      replace (fst m - pos) with (S (fst m - S pos)) by lia.
      exact Hshape.
Qed.

(** The text of a successful search has the shape of the pattern. *)
Lemma search_shaped (p : pattern) (s : str) (m : nat * nat) :
  search p s = Some m -> shaped p (group s m).
Proof.
  intros H; destruct (search_from_shaped p s None 0 m H) as [_ Hs].
  rewrite Nat.sub_0_r in Hs; exact Hs.
Qed.

End Matching.

Lemma digits_of_app (u v : str) :
  digits_of (u ++ v) = digits_of u ++ digits_of v.
Proof. unfold digits_of, Re.sub_class; apply flat_map_app. Qed.

Lemma digits_of_digits (cls : ascii -> bool) (u : str) :
  (forall c, cls c = true -> is_digit c = true) ->
  all_in cls u -> digits_of u = u.
Proof.
  intros Hcls Hu; induction Hu as [|c u Hc Hu IH]; [reflexivity|].
  unfold digits_of, Re.sub_class in *; simpl.
  rewrite (Hcls c Hc), IH; reflexivity.
Qed.

Lemma digits_of_other (cls : ascii -> bool) (u : str) :
  (forall c, cls c = true -> is_digit c = false) ->
  all_in cls u -> digits_of u = [].
Proof.
  intros Hcls Hu; induction Hu as [|c u Hc Hu IH]; [reflexivity|].
  unfold digits_of, Re.sub_class in *; simpl.
  rewrite (Hcls c Hc), IH; reflexivity.
Qed.


Lemma shaped_digit_count (p : Re.pattern) (n : nat) :
  digit_count p n -> forall t, shaped p t -> length (digits_of t) = n.
Proof.
  induction 1 as [|p n _ IH|cls k p n Hcls _ IH|cls lo hi p n Hcls _ IH];
    intros t; simpl.
  - intros ->; reflexivity.
  - apply IH.
  - intros (u & v & -> & Hu & Hlo & Hhi & Hv).
    rewrite digits_of_app, length_app, (digits_of_digits cls u Hcls Hu), (IH v Hv).
    lia.
  - intros (u & v & -> & Hu & _ & _ & Hv).
    rewrite digits_of_app, (digits_of_other cls u Hcls Hu); simpl.
    apply IH; exact Hv.
Qed.

Ltac by_cases_on_char c :=
  destruct c as [[] [] [] [] [] [] [] []]; vm_compute; congruence.

Lemma separator_not_digit (c : ascii) :
  separator c = true -> is_digit c = false.
Proof. by_cases_on_char c. Qed.

Lemma space_not_digit (c : ascii) : is_space c = true -> is_digit c = false.
Proof. by_cases_on_char c. Qed.

Lemma open_paren_not_digit (c : ascii) :
  Ascii.eqb "(" c = true -> is_digit c = false.
Proof. by_cases_on_char c. Qed.

Lemma close_paren_not_digit (c : ascii) :
  Ascii.eqb ")" c = true -> is_digit c = false.
Proof. by_cases_on_char c. Qed.

Lemma plain_re_digits : digit_count plain_re 10.
Proof.
  unfold plain_re, Re.exactly, Re.opt.
  apply dc_boundary, (dc_digits is_digit 3); [auto|].
  apply dc_other; [exact separator_not_digit|].
  apply (dc_digits is_digit 3); [auto|].
  apply dc_other; [exact separator_not_digit|].
  apply (dc_digits is_digit 4 _ 0); [auto|].
  apply dc_boundary, dc_nil.
Qed.

Lemma paren_re_digits : digit_count paren_re 10.
Proof.
  unfold paren_re, Re.exactly, Re.opt, Re.chr, Re.one, Re.star.
  apply dc_boundary, dc_other; [exact open_paren_not_digit|].
  apply (dc_digits is_digit 3); [auto|].
  apply dc_other; [exact close_paren_not_digit|].
  apply dc_other; [exact space_not_digit|].
  apply (dc_digits is_digit 3); [auto|].
  apply dc_other; [exact separator_not_digit|].
  apply (dc_digits is_digit 4 _ 0); [auto|].
  apply dc_boundary, dc_nil.
Qed.

Lemma ten_re_digits : digit_count ten_re 10.
Proof.
  unfold ten_re, Re.exactly.
  apply dc_boundary, (dc_digits is_digit 10 _ 0); [auto|].
  apply dc_boundary, dc_nil.
Qed.

(** Every match of one of the three phone patterns holds ten digits: the
    length test of the loop never fails. *)
Lemma phone_match_ten_digits (pattern : Re.pattern) (text : str)
  (m : nat * nat) :
  In pattern phone_patterns ->
  Re.search pattern text = Some m ->
  length (digits_of (Re.group text m)) = 10.
Proof.
  intros Hin Hm; apply search_shaped in Hm.
  destruct Hin as [<-|[<-|[<-|[]]]].
  - exact (shaped_digit_count plain_re 10 plain_re_digits _ Hm).
  - exact (shaped_digit_count paren_re 10 paren_re_digits _ Hm).
  - exact (shaped_digit_count ten_re 10 ten_re_digits _ Hm).
Qed.


Lemma first_phone_first_match (patterns : list Re.pattern) (text : str) :
  (forall pattern, In pattern patterns -> In pattern phone_patterns) ->
  first_phone patterns text
  = option_map (fun m => format_phone (digits_of (Re.group text m)))
      (first_match patterns text).
Proof.
  induction patterns as [|pattern rest IH]; intros Hsub; [reflexivity|].
  simpl; destruct (Re.search pattern text) as [m|] eqn:Hm.
  - rewrite (phone_match_ten_digits pattern text m (Hsub _ (or_introl eq_refl)) Hm).
    reflexivity.
  - apply IH; intros p Hp; apply Hsub; right; exact Hp.
Qed.


Example phone_from_address_examples :
  extract_phone_from_address (Some (lit "123 Main St 612.555 1212 or 6125551213"))
  = Some (lit "(612) 555-1212")
  /\ extract_phone_from_address (Some (lit "Suite 4, ph(612) 555-1212"))
     = Some (lit "(612) 555-1212")
  /\ extract_phone_from_address (Some (lit "123 Main St (612) 555-1212")) = None
  /\ extract_phone_from_address (Some (lit "1234 Main St, Minneapolis 55401"))
     = None.
Proof. vm_compute; repeat split; reflexivity. Qed.

(** ** C4: when a normalized name is a fixed point of the normalizer *)

Section Normalizer.

Lemma settled_after_upper (c : ascii) :
  in_set punctuation (upper_char c) = false ->
  settled (upper_char c) = true.
Proof. by_cases_on_char c. Qed.

Lemma settled_fixed (c : ascii) :
  settled c = true -> Ascii.eqb c "&" = false ->
  upper_char c = c /\ in_set punctuation c = false.
Proof.
  unfold settled; rewrite andb_true_iff, orb_true_iff, negb_true_iff.
  rewrite Ascii.eqb_eq; intros [Hup [Hp|Ha]] Hamp; [auto | congruence].
Qed.

Lemma all_in_app (cls : ascii -> bool) (u v : str) :
  all_in cls u -> all_in cls v -> all_in cls (u ++ v).
Proof. intros; apply Forall_app; auto. Qed.

(** Steps one and two produce settled characters only. *)
Lemma strip_punctuation_settled (name : str) :
  all_in settled (Re.sub_class (in_set punctuation) (lit " ") (upper name)).
Proof.
  induction name as [|c name IH]; [constructor|].
  unfold Re.sub_class, upper in *; cbn [flat_map map].
  destruct (in_set punctuation (upper_char c)) eqn:Hp.
  - apply all_in_app; [repeat constructor | exact IH].
  - constructor; [apply settled_after_upper; exact Hp | exact IH].
Qed.

(** [str.replace] writes characters of the text or of the new string. *)
Lemma replace_skip_all_in (cls : ascii -> bool) (old new : str) :
  all_in cls new ->
  forall s skip, all_in cls s -> all_in cls (replace_skip old new s skip).
Proof.
  intros Hnew; induction s as [|c s IH]; intros skip Hs; simpl; [constructor|].
  inversion Hs; subst.
  destruct skip; [|apply IH; assumption].
  destruct (startswith (c :: s) old).
  - apply all_in_app; [exact Hnew | apply IH; assumption].
  - constructor; [assumption | apply IH; assumption].
Qed.

Lemma replace_all_in (cls : ascii -> bool) (s old new : str) :
  all_in cls new -> all_in cls s -> all_in cls (replace s old new).
Proof.
  intros Hnew Hs; unfold replace; destruct old as [|o old].
  - apply all_in_app; [exact Hnew|].
    induction Hs as [|c s Hc Hs IH]; simpl; [constructor|].
    constructor; [exact Hc | apply all_in_app; assumption].
  - apply replace_skip_all_in; assumption.
Qed.

(** A replacement by the same string changes nothing. *)
Lemma replace_skip_same (o : ascii) (old : str) :
  forall s skip,
    replace_skip (o :: old) (o :: old) s skip = skipn skip s.
Proof.
  induction s as [|c s IH]; intros skip; [destruct skip; reflexivity|].
  cbn [replace_skip]; destruct skip as [|skip]; [|apply IH].
  destruct (startswith (c :: s) (o :: old)) eqn:Hp; [|rewrite IH; reflexivity].
  rewrite IH; apply startswith_split in Hp.
  simpl in Hp; injection Hp as Hc Hs; subst c.
  simpl; rewrite Nat.sub_0_r; f_equal; symmetry; exact Hs.
Qed.

Lemma replace_same (s old : str) : replace s old old = s.
Proof.
  unfold replace; destruct old as [|o old].
  - simpl; induction s as [|c s IH]; simpl; [|rewrite IH]; reflexivity.
  - apply replace_skip_same.
Qed.

Lemma find_from_none_shift (s p : str) (i j : nat) :
  find_from s p i = None -> find_from s p j = None.
Proof.
  revert i j; induction s as [|c s IH]; intros i j; simpl;
    destruct (startswith _ p); try discriminate; auto.
  apply IH.
Qed.

Lemma contains_cons_false (c : ascii) (s p : str) :
  contains (c :: s) p = false ->
  startswith (c :: s) p = false /\ contains s p = false.
Proof.
  unfold contains; cbn [find_from].
  destruct (startswith (c :: s) p); [discriminate|].
  destruct (find_from s p 1) eqn:H; [discriminate|].
  rewrite (find_from_none_shift s p 1 0 H); auto.
Qed.

(** A replacement of a string that does not occur changes nothing. *)
Lemma replace_absent (s old new : str) :
  contains s old = false -> replace s old new = s.
Proof.
  unfold replace; destruct old as [|o old].
  - destruct s; discriminate.
  - induction s as [|c s IH]; intros H; [reflexivity|].
    apply contains_cons_false in H; destruct H as [Hp Hs].
    cbn [replace_skip]; rewrite Hp, (IH Hs); reflexivity.
Qed.

Lemma split_acc_words (s : str) :
  forall cur,
    all_in (fun c => negb (is_space c)) cur -> Forall word (split_acc s cur).
Proof.
  induction s as [|c s IH]; intros cur Hcur; simpl.
  - destruct cur; [constructor|].
    constructor; [split; [discriminate | exact Hcur] | constructor].
  - destruct (is_space c) eqn:Hc.
    + destruct cur; [apply IH; constructor|].
      constructor; [split; [discriminate | exact Hcur] | apply IH; constructor].
    + apply IH, all_in_app; [exact Hcur|].
      constructor; [rewrite Hc; reflexivity | constructor].
Qed.

Lemma split_acc_word (w : str) :
  all_in (fun c => negb (is_space c)) w ->
  forall rest cur, split_acc (w ++ rest) cur = split_acc rest (cur ++ w).
Proof.
  induction 1 as [|c w Hc Hw IH]; intros rest cur; simpl.
  - rewrite app_nil_r; reflexivity.
  - apply negb_true_iff in Hc; rewrite Hc, IH, <- app_assoc; reflexivity.
Qed.

Lemma split_join (ws : list str) :
  Forall word ws -> split (join (lit " ") ws) = ws.
Proof.
  unfold split; induction 1 as [|w ws [Hne Hw] Hws IH]; [reflexivity|].
  destruct ws as [|w' ws].
  - simpl; rewrite <- (app_nil_r w) at 1.
    rewrite (split_acc_word w Hw); simpl.
    destruct w; [contradiction | reflexivity].
  - change (join (lit " ") (w :: w' :: ws))
      with (w ++ lit " " ++ join (lit " ") (w' :: ws)).
    rewrite (split_acc_word w Hw); simpl.
    destruct w; [contradiction|].
    f_equal; exact IH.
Qed.

Lemma split_acc_all_in (cls : ascii -> bool) (s : str) :
  all_in cls s ->
  forall cur, all_in cls cur -> Forall (all_in cls) (split_acc s cur).
Proof.
  induction 1 as [|c s Hc Hs IH]; intros cur Hcur; simpl.
  - destruct cur; repeat constructor; inversion Hcur; assumption.
  - destruct (is_space c).
    + destruct cur; [apply IH; constructor|].
      constructor; [exact Hcur | apply IH; constructor].
    + apply IH, all_in_app; [exact Hcur | repeat constructor; exact Hc].
Qed.

Lemma join_all_in (cls : ascii -> bool) (sep : str) (ws : list str) :
  all_in cls sep -> Forall (all_in cls) ws -> all_in cls (join sep ws).
Proof.
  intros Hsep; induction 1 as [|w ws Hw Hws IH]; [constructor|].
  destruct ws as [|w' ws]; [exact Hw|].
  change (join sep (w :: w' :: ws)) with (w ++ sep ++ join sep (w' :: ws)).
  repeat apply all_in_app; assumption.
Qed.

(** The replacement strings hold settled characters only. *)
Lemma replacements_settled :
  forallb (fun kv => forallb settled (snd kv)) replacements = true.
Proof. vm_compute; reflexivity. Qed.

Lemma apply_replacements_settled (name : str) :
  all_in settled name -> all_in settled (apply_replacements name).
Proof.
  unfold apply_replacements.
  pose proof replacements_settled as Hnew.
  revert name; induction replacements as [|[old new] rest IH]; intros name Hn;
    [exact Hn|].
  simpl in Hnew; apply andb_true_iff in Hnew; destruct Hnew as [Hnew Hrest].
  simpl; apply (IH Hrest), replace_all_in; [|exact Hn].
  apply Forall_forall; apply (proj1 (forallb_forall _ _) Hnew).
Qed.

(** Every normalized name holds settled characters only. *)
Lemma normalize_settled (name : option str) :
  all_in settled (normalize_company_name name).
Proof.
  destruct name as [name|]; [|constructor].
  unfold normalize_company_name.
  apply join_all_in; [repeat constructor|].
  apply split_acc_all_in; [|constructor].
  apply apply_replacements_settled, strip_punctuation_settled.
Qed.

(** Every normalized name is its words joined by single spaces. *)
Lemma normalize_rejoin (name : option str) :
  join (lit " ") (split (normalize_company_name name))
  = normalize_company_name name.
Proof.
  destruct name as [name|]; [|reflexivity].
  unfold normalize_company_name.
  rewrite split_join; [reflexivity|].
  apply split_acc_words; constructor.
Qed.

Lemma absent_char (c : ascii) (s : str) :
  contains s [c] = false -> Forall (fun x => Ascii.eqb x c = false) s.
Proof.
  induction s as [|x s IH]; intros H; [constructor|].
  apply contains_cons_false in H; destruct H as [Hx Hs].
  constructor; [|apply IH; exact Hs].
  simpl in Hx; rewrite andb_true_r, Ascii.eqb_sym in Hx; exact Hx.
Qed.

Lemma upper_fixed (s : str) :
  Forall (fun c => upper_char c = c) s -> upper s = s.
Proof.
  induction 1 as [|c s Hc Hs IH]; [reflexivity|].
  unfold upper in *; simpl; rewrite Hc, IH; reflexivity.
Qed.

Lemma strip_punctuation_fixed (s : str) :
  Forall (fun c => in_set punctuation c = false) s ->
  Re.sub_class (in_set punctuation) (lit " ") s = s.
Proof.
  induction 1 as [|c s Hc Hs IH]; [reflexivity|].
  unfold Re.sub_class in *; cbn [flat_map]; rewrite Hc, IH; reflexivity.
Qed.

Lemma apply_replacements_fixed (y : str) :
  no_long_form y = true -> apply_replacements y = y.
Proof.
  unfold apply_replacements, no_long_form.
  induction replacements as [|[old new] rest IH]; [reflexivity|].
  cbn [forallb fold_left fst snd].
  rewrite andb_true_iff, orb_true_iff, negb_true_iff.
  intros [[E|E] Hrest].
  - apply str_eqb_eq in E; subst new; rewrite replace_same; exact (IH Hrest).
  - rewrite (replace_absent y old new E); exact (IH Hrest).
Qed.

End Normalizer.

(** C4 (amended): a normalized name that holds no ampersand and none of
    the long forms [ INCORPORATED], [ CORPORATION],
    [ LIMITED LIABILITY COMPANY], [ LIMITED], [ COMPANY], [ AND ] is a
    fixed point: normalizing it again gives the same string. *)
Theorem normalize_idempotent_without_long_forms (x : option str) :
  contains (normalize_company_name x) (lit "&") = false ->
  no_long_form (normalize_company_name x) = true ->
  normalize_company_name (Some (normalize_company_name x))
  = normalize_company_name x.
Proof.
  intros Hamp Hlong.
  pose proof (normalize_settled x) as Hsettled.
  apply absent_char in Hamp.
  assert (Hfixed : Forall (fun c => upper_char c = c
                                    /\ in_set punctuation c = false)
                     (normalize_company_name x)).
  { apply Forall_forall; intros c Hc.
    apply settled_fixed.
    - exact (proj1 (Forall_forall _ _) Hsettled c Hc).
    - exact (proj1 (Forall_forall _ _) Hamp c Hc). }
  unfold normalize_company_name at 1.
  rewrite upper_fixed
    by (eapply Forall_impl; [|exact Hfixed]; intros c [H _]; exact H).
  rewrite strip_punctuation_fixed
    by (eapply Forall_impl; [|exact Hfixed]; intros c [_ H]; exact H).
  rewrite (apply_replacements_fixed _ Hlong).
  apply normalize_rejoin.
Qed.

Lemma normalize_idempotent_without_long_forms_witness :
  normalize_company_name
    (Some (normalize_company_name
             (Some (lit "Twin  City Plumbing & Heating Company, Incorporated"))))
  = lit "TWIN CITY PLUMBING HEATING CO INC".
Proof.
  rewrite normalize_idempotent_without_long_forms.
  - vm_compute; reflexivity.
  - vm_compute; reflexivity.
  - vm_compute; reflexivity.
Defined.

(** ** The block recursion of the ratio has enough fuel *)

Section Blocks.

Import Difflib.

Lemma scan_row_bounds (x : ascii) (b : str) :
  forall prev diag i j best,
    Forall (fun v => v <= i) prev -> diag <= i -> ends_within (S i) best ->
    Forall (fun v => v <= S i) (fst (scan_row x b prev diag i j best))
    /\ ends_within (S i) (snd (scan_row x b prev diag i j best)).
Proof.
  induction b as [|y b IH]; intros prev diag i j best Hprev Hdiag Hbest;
    cbn [scan_row]; [split; [constructor | exact Hbest]|].
  assert (Hhd : hd 0 prev <= i)
    by (destruct prev; simpl; [lia | inversion Hprev; assumption]).
  assert (Htl : Forall (fun v => v <= i) (tl prev))
    by (destruct prev; simpl; [constructor | inversion Hprev; assumption]).
  destruct (Ascii.eqb x y).
  - set (best' := if m_size best <? S diag
                  then mkMatch (i + 1 - S diag) (j + 1 - S diag) (S diag)
                  else best).
    assert (Hbest' : ends_within (S i) best').
    { unfold best'; destruct (m_size best <? S diag); [|exact Hbest].
      unfold ends_within; simpl; lia. }
    specialize (IH (tl prev) (hd 0 prev) i (S j) best' Htl Hhd Hbest').
    destruct (scan_row x b (tl prev) (hd 0 prev) i (S j) best') as [row best''].
    simpl in *; destruct IH as [Hrow Hb]; split; [constructor; [lia|]|]; assumption.
  - specialize (IH (tl prev) (hd 0 prev) i (S j) best Htl Hhd Hbest).
    destruct (scan_row x b (tl prev) (hd 0 prev) i (S j) best) as [row best''].
    simpl in *; destruct IH as [Hrow Hb]; split; [constructor; [lia|]|]; assumption.
Qed.

Lemma scan_rows_bounds (b : str) (a : str) :
  forall prev i best,
    Forall (fun v => v <= i) prev -> ends_within i best ->
    ends_within (i + length a) (scan_rows a b prev i best).
Proof.
  induction a as [|x a IH]; intros prev i best Hprev Hbest; cbn [scan_rows].
  - simpl; rewrite Nat.add_0_r; exact Hbest.
  - assert (Hbest' : ends_within (S i) best)
      by (unfold ends_within in *; lia).
    pose proof (scan_row_bounds x b prev 0 i 0 best Hprev (Nat.le_0_l i) Hbest')
      as [Hrow Hb].
    destruct (scan_row x b prev 0 i 0 best) as [row best'].
    simpl in Hrow, Hb; simpl length.
    replace (i + S (length a)) with (S i + length a) by lia.
    apply IH; assumption.
Qed.

(** The longest block lies inside [a]. *)
Lemma find_longest_match_within (a b : str) :
  m_a (find_longest_match a b) + m_size (find_longest_match a b) <= length a.
Proof.
  apply (scan_rows_bounds b a [] 0 (mkMatch 0 0 0)); [constructor|].
  unfold ends_within; simpl; lia.
Qed.

(** More fuel than the length of [a] never changes the result: the count
    of [matches] is the one of the unbounded recursion. *)
Lemma matched_fuel_enough (fuel : nat) :
  forall fuel' a b,
    length a < fuel -> length a < fuel' ->
    matched fuel a b = matched fuel' a b.
Proof.
  induction fuel as [|fuel IH]; intros fuel' a b Hf Hf'; [lia|].
  destruct fuel' as [|fuel']; [lia|].
  cbn [matched].
  pose proof (find_longest_match_within a b) as Hin.
  destruct (m_size (find_longest_match a b) =? 0) eqn:Hk; [reflexivity|].
  apply Nat.eqb_neq in Hk.
  f_equal; [f_equal|].
  - destruct (_ && _); [|reflexivity].
    apply IH; rewrite length_firstn; lia.
  - destruct (_ && _); [|reflexivity].
    apply IH; rewrite length_skipn; lia.
Qed.

Lemma matches_any_fuel (fuel : nat) (a b : str) :
  length a < fuel -> matched fuel a b = matches a b.
Proof. intros H; apply matched_fuel_enough; [exact H | lia]. Qed.

End Blocks.

(** * Further properties of the two scripts *)

(** ** Whitespace in normalized names and company names *)

Lemma lstrip_snoc (u : str) (c : ascii) :
  lstrip (u ++ [c])
  = match lstrip u with
    | [] => if is_space c then [] else [c]
    | l => l ++ [c]
    end.
Proof.
  induction u as [|x u IH]; simpl; [destruct (is_space c); reflexivity|].
  destruct (is_space x); [exact IH | reflexivity].
Qed.

Lemma rstrip_cons (c : ascii) (s : str) :
  rstrip (c :: s)
  = match rstrip s with
    | [] => if is_space c then [] else [c]
    | r => c :: r
    end.
Proof.
  unfold rstrip; simpl rev; rewrite lstrip_snoc.
  destruct (lstrip (rev s)) as [|x l]; simpl.
  - destruct (is_space c); reflexivity.
  - rewrite rev_app_distr; simpl.
    destruct (rev l ++ [x]) eqn:E; [destruct (rev l); discriminate|].
    reflexivity.
Qed.

Lemma rstrip_cons_non_space (c : ascii) (s : str) :
  is_space c = false -> rstrip (c :: s) = c :: rstrip s.
Proof.
  intros Hc; rewrite rstrip_cons, Hc; destruct (rstrip s); reflexivity.
Qed.

Lemma split_acc_cur (s : str) (c : ascii) (cur : str) :
  split_acc s (c :: cur) <> [].
Proof.
  revert c cur; induction s as [|x s IH]; intros c cur; simpl; [discriminate|].
  destruct (is_space x); [discriminate | apply IH].
Qed.

(** Nothing is left of [s] exactly when [split] finds no word in it. *)
Lemma rstrip_nil_split (s : str) :
  rstrip s = [] <-> split s = [].
Proof.
  unfold split; induction s as [|c s IH]; [split; reflexivity|].
  rewrite rstrip_cons; simpl.
  destruct (is_space c) eqn:Hc.
  - destruct (rstrip s); [tauto|].
    split; [discriminate | intros H; apply IH in H; discriminate].
  - split; [destruct (rstrip s); discriminate|].
    intros H; exfalso; exact (split_acc_cur s c [] H).
Qed.

Lemma collapsed_non_space (c : ascii) (s : str) (in_run : bool) :
  is_space c = false -> collapsed (c :: s) in_run = c :: collapsed s false.
Proof.
  intros Hc; unfold collapsed; rewrite (rstrip_cons_non_space c s Hc).
  simpl; rewrite Hc; reflexivity.
Qed.

Lemma collapsed_space (c : ascii) (s : str) (in_run : bool) :
  is_space c = true ->
  collapsed (c :: s) in_run
  = match rstrip s with
    | [] => []
    | _ => (if in_run then [] else lit " ") ++ collapsed s true
    end.
Proof.
  intros Hc; unfold collapsed; rewrite rstrip_cons, Hc.
  destruct (rstrip s) as [|x r]; [reflexivity|].
  cbn [Re.sub_runs_from]; rewrite Hc; reflexivity.
Qed.

Lemma join_words (s : str) :
  join (lit " ") (split_acc s []) = collapsed s true
  /\ forall cur,
      cur <> [] ->
      join (lit " ") (split_acc s cur) = cur ++ collapsed s false.
Proof.
  induction s as [|c s [IH0 IH1]].
  - split; [reflexivity|].
    intros [|x cur] Hne; [contradiction|].
    simpl; rewrite app_nil_r; reflexivity.
  - destruct (is_space c) eqn:Hc.
    + rewrite !(collapsed_space c s _ Hc); cbn [split_acc]; rewrite Hc.
      pose proof (rstrip_nil_split s) as Hnil; unfold split in Hnil.
      split.
      * rewrite IH0; destruct (rstrip s) eqn:E; [|reflexivity].
        unfold collapsed; rewrite E; reflexivity.
      * intros [|x cur] Hne; [contradiction|].
        destruct (rstrip s) eqn:E.
        -- rewrite (proj1 Hnil eq_refl), app_nil_r; reflexivity.
        -- destruct (split_acc s []) as [|w ws] eqn:Ew;
             [destruct Hnil as [_ Hnil]; discriminate (Hnil eq_refl)|].
           change (join (lit " ") ((x :: cur) :: w :: ws))
             with ((x :: cur) ++ lit " " ++ join (lit " ") (w :: ws)).
           rewrite IH0; reflexivity.
    + rewrite !(collapsed_non_space c s _ Hc); cbn [split_acc]; rewrite Hc.
      split.
      * cbn [app]; rewrite (IH1 [c]); [reflexivity | discriminate].
      * intros cur Hne; rewrite (IH1 (cur ++ [c])), <- app_assoc;
          [reflexivity | destruct cur; discriminate].
Qed.

Lemma collapsed_lstrip (s : str) : collapsed (lstrip s) false = collapsed s true.
Proof.
  induction s as [|c s IH]; [reflexivity|].
  cbn [lstrip]; destruct (is_space c) eqn:Hc.
  - rewrite (collapsed_space c s true Hc), IH.
    destruct (rstrip s) eqn:E; [|reflexivity].
    unfold collapsed; rewrite E; reflexivity.
  - rewrite !(collapsed_non_space c s _ Hc); reflexivity.
Qed.

(** Collapsing the runs of whitespace of a stripped text is joining its
    words with single spaces. *)
Lemma collapse_strip_join (s : str) :
  Re.sub_runs is_space (lit " ") (strip s) = join (lit " ") (split s).
Proof.
  unfold split; rewrite (proj1 (join_words s)), <- collapsed_lstrip.
  reflexivity.
Qed.

Lemma rstrip_snoc_non_space (s : str) (c : ascii) :
  is_space c = false -> rstrip (s ++ [c]) = s ++ [c].
Proof.
  intros Hc; unfold rstrip; rewrite rev_app_distr; simpl; rewrite Hc.
  simpl; rewrite rev_involutive; reflexivity.
Qed.

Lemma word_last (w : str) :
  word w -> exists u c, w = u ++ [c] /\ is_space c = false.
Proof.
  intros [Hne Hw]; destruct (exists_last Hne) as (u & c & ->).
  exists u, c; split; [reflexivity|].
  apply Forall_app in Hw; destruct Hw as [_ Hc]; inversion Hc; subst.
  apply negb_true_iff; assumption.
Qed.

Lemma join_last (ws : list str) :
  Forall word ws -> ws <> [] ->
  exists u c, join (lit " ") ws = u ++ [c] /\ is_space c = false.
Proof.
  induction 1 as [|w ws Hw Hws IH]; intros Hne; [contradiction|].
  destruct ws as [|w' ws]; [apply word_last; exact Hw|].
  destruct IH as (u & c & E & Hc); [discriminate|].
  exists (w ++ lit " " ++ u), c; split; [|exact Hc].
  change (join (lit " ") (w :: w' :: ws))
    with (w ++ lit " " ++ join (lit " ") (w' :: ws)).
  rewrite E, <- !app_assoc; reflexivity.
Qed.

Lemma join_first (ws : list str) :
  Forall word ws -> lstrip (join (lit " ") ws) = join (lit " ") ws.
Proof.
  intros Hws; destruct Hws as [|w ws [Hne Hw] Hws]; [reflexivity|].
  destruct w as [|c w]; [contradiction|].
  inversion Hw as [|? ? Hc _]; subst; apply negb_true_iff in Hc.
  destruct ws; simpl; rewrite Hc; reflexivity.
Qed.

Lemma join_single_spaced (ws : list str) :
  Forall word ws -> single_spaced (join (lit " ") ws).
Proof.
  intros Hws.
  assert (Hstrip : strip (join (lit " ") ws) = join (lit " ") ws).
  { unfold strip; rewrite (join_first ws Hws).
    destruct ws as [|w ws]; [reflexivity|].
    destruct (join_last (w :: ws) Hws) as (u & c & -> & Hc); [discriminate|].
    apply rstrip_snoc_non_space; exact Hc. }
  split; [exact Hstrip|].
  rewrite <- Hstrip at 1.
  rewrite collapse_strip_join, (split_join ws Hws); reflexivity.
Qed.

Lemma split_words (s : str) : Forall word (split s).
Proof. apply split_acc_words; constructor. Qed.

(** ** The normalizer *)

(** X1: a normalized name has no whitespace at either end, and its only
    whitespace is single spaces between words. *)
Theorem normalized_name_single_spaced (name : option str) :
  single_spaced (normalize_company_name name).
Proof.
  destruct name as [name|]; [|split; reflexivity].
  apply join_single_spaced, split_words.
Qed.

Lemma settled_plain (c : ascii) :
  settled c = true ->
  is_lower c = false /\ (in_set punctuation c = true -> c = "&"%char).
Proof.
  destruct c as [[] [] [] [] [] [] [] []]; vm_compute; intros H;
    try discriminate H;
    (split; [reflexivity | intros H'; try discriminate H'; reflexivity]).
Qed.

(** X2: a normalized name holds no lower-case letter, and none of the
    characters the normalizer replaces by a space (full stop, comma,
    apostrophe, double quote, ampersand, hyphen) other than the
    ampersand, which the replacement of [ AND ] writes back. *)
Theorem normalized_name_characters (name : option str) :
  Forall (fun c => is_lower c = false
                   /\ (in_set punctuation c = true -> c = "&"%char))
    (normalize_company_name name).
Proof.
  eapply Forall_impl; [|apply normalize_settled].
  intros c Hc; apply settled_plain; exact Hc.
Qed.











Lemma startswith_all_in (cls : ascii -> bool) (p : str) :
  forall s, startswith s p = true -> all_in cls s -> all_in cls p.
Proof.
  induction p as [|x p IH]; intros s Hp Hs; [constructor|].
  destruct s as [|y s]; [discriminate|].
  simpl in Hp; apply andb_true_iff in Hp; destruct Hp as [Hx Hp].
  apply Ascii.eqb_eq in Hx; subst y; inversion Hs; subst.
  constructor; [assumption | eapply IH; eassumption].
Qed.

Lemma contains_all_in (cls : ascii -> bool) (s p : str) :
  all_in cls s -> existsb (fun c => negb (cls c)) p = true ->
  contains s p = false.
Proof.
  intros Hs Hp; unfold contains; generalize 0.
  induction Hs as [|c s Hc Hs IH]; intros n; cbn [find_from].
  - destruct (startswith [] p) eqn:E; [|reflexivity].
    destruct p; [discriminate Hp | discriminate E].
  - destruct (startswith (c :: s) p) eqn:E; [|apply IH].
    exfalso; apply (startswith_all_in cls) in E; [|constructor; assumption].
    apply existsb_exists in Hp; destruct Hp as (x & Hx & Hneg).
    rewrite (proj1 (Forall_forall _ _) E x Hx) in Hneg; discriminate.
Qed.

Lemma replacements_have_letters :
  forallb (fun kv => existsb (fun c => negb (is_space c)) (fst kv))
    replacements = true.
Proof. vm_compute; reflexivity. Qed.

Lemma apply_replacements_spaces (s : str) :
  all_in is_space s -> apply_replacements s = s.
Proof.
  intros Hs; unfold apply_replacements.
  pose proof replacements_have_letters as Hkeys.
  induction replacements as [|[old new] rest IH]; [reflexivity|].
  simpl in Hkeys; apply andb_true_iff in Hkeys; destruct Hkeys as [Hold Hrest].
  simpl; rewrite replace_absent; [exact (IH Hrest)|].
  apply (contains_all_in is_space); assumption.
Qed.

Lemma split_spaces (s : str) : all_in is_space s -> split s = [].
Proof.
  unfold split; induction 1 as [|c s Hc Hs IH]; [reflexivity|].
  simpl; rewrite Hc; exact IH.
Qed.

Lemma blank_char_upper (c : ascii) :
  blank_char c = true ->
  is_space (upper_char c) = true
  \/ in_set punctuation (upper_char c) = true.
Proof.
  destruct c as [[] [] [] [] [] [] [] []]; vm_compute; intros H;
    try discriminate H; auto.
Qed.

Lemma normalize_blank (name : option str) :
  blank name = true -> normalize_company_name name = [].
Proof.
  destruct name as [n|]; [|reflexivity].
  intros Hn; cbn [blank] in Hn; unfold normalize_company_name.
  assert (Hsp : all_in is_space
                  (Re.sub_class (in_set punctuation) (lit " ") (upper n))).
  { induction n as [|c n IH]; [constructor|].
    simpl in Hn; apply andb_true_iff in Hn; destruct Hn as [Hc Hn].
    unfold Re.sub_class, upper in *; cbn [map flat_map].
    destruct (in_set punctuation (upper_char c)) eqn:Hp.
    - apply all_in_app; [repeat constructor | exact (IH Hn)].
    - constructor; [|exact (IH Hn)].
      destruct (blank_char_upper c Hc) as [H|H]; [exact H | congruence]. }
  rewrite (apply_replacements_spaces _ Hsp), (split_spaces _ Hsp).
  reflexivity.
Qed.

(** X4: a missing name, and a name made of whitespace and punctuation
    only, normalize to the empty string; two such names are scored as an
    exact match, 1.0, whatever the threshold. *)
Theorem blank_names_match_exactly (a b : option str) (threshold : Q) :
  blank a = true -> blank b = true ->
  normalize_company_name a = []
  /\ fuzzy_match_companies a b threshold = (true, 1%Q).
Proof.
  intros Ha Hb; split; [apply normalize_blank; exact Ha|].
  unfold fuzzy_match_companies.
  rewrite (normalize_blank a Ha), (normalize_blank b Hb); reflexivity.
Qed.

Lemma blank_names_match_exactly_witness :
  fuzzy_match_companies None (Some (lit " - & . ")) Score.threshold
  = (true, 1%Q).
Proof.
  apply (blank_names_match_exactly None (Some (lit " - & . ")));
    vm_compute; reflexivity.
Defined.

(** ** The flag and the score of the scorer *)

(** X5: for every threshold up to 0.9 the flag of the scorer is true
    exactly when the returned score reaches the threshold. *)
Theorem flag_iff_score_reaches_threshold (a b : option str) (threshold : Q) :
  (threshold <= Score.nine_tenths)%Q ->
  fst (fuzzy_match_companies a b threshold) = true
  <-> (threshold <= snd (fuzzy_match_companies a b threshold))%Q.
Proof.
  intros Hth.
  destruct (fuzzy_cases a b threshold) as [E | [[E H] | [[E H] | [E H]]]].
  - rewrite E; simpl; split; [intros _ | reflexivity].
    eapply Qle_trans; [exact Hth | vm_compute; discriminate].
  - rewrite E; split; [intros _; apply ge_true; exact H | reflexivity].
  - rewrite E; split; [intros _ | reflexivity].
    eapply Qle_trans; [exact Hth | apply ge_true; exact H].
  - rewrite E; split; [discriminate|].
    intros Hle; exfalso; apply ge_false in H.
    exact (Qle_not_lt _ _ Hle H).
Qed.

Lemma flag_iff_score_reaches_threshold_witness :
  fst (fuzzy_match_companies pipe_pipes pipes_pipe Score.threshold) = true
  <-> (Score.threshold
       <= snd (fuzzy_match_companies pipe_pipes pipes_pipe Score.threshold))%Q.
Proof.
  apply flag_iff_score_reaches_threshold; vm_compute; discriminate.
Defined.

Lemma max_reaches_second (x y : Q) : (y <= Score.max x y)%Q.
Proof.
  unfold Score.max; destruct (Score.lt x y) eqn:E;
    [apply Qle_refl | apply lt_false; exact E].
Qed.

Lemma containment_boost (a b : option str) (threshold : Q) :
  (threshold <= Score.nine_tenths)%Q ->
  contains (normalize_company_name b) (normalize_company_name a)
  || contains (normalize_company_name a) (normalize_company_name b) = true ->
  fst (fuzzy_match_companies a b threshold) = true
  /\ (Score.nine_tenths <= snd (fuzzy_match_companies a b threshold))%Q.
Proof.
  intros Hth Hin; unfold fuzzy_match_companies.
  destruct (PyStr.eqb _ _); [split; [reflexivity | vm_compute; discriminate]|].
  rewrite Hin.
  set (similarity := Score.max _ Score.nine_tenths).
  assert (Hsim : (Score.nine_tenths <= similarity)%Q)
    by apply max_reaches_second.
  assert (Hge : Score.ge similarity threshold = true).
  { unfold Score.ge; apply Qle_bool_iff; eapply Qle_trans; eassumption. }
  rewrite Hge; split; [reflexivity | exact Hsim].
Qed.

(** X6: when one normalized name contains the other, the pair is a match
    with a score of at least 0.9, for every threshold up to 0.9. *)
Theorem containment_is_a_match (a b : option str) (threshold : Q) :
  (threshold <= Score.nine_tenths)%Q ->
  contains (normalize_company_name b) (normalize_company_name a)
  || contains (normalize_company_name a) (normalize_company_name b) = true ->
  fst (fuzzy_match_companies a b threshold) = true
  /\ (Score.nine_tenths <= snd (fuzzy_match_companies a b threshold))%Q.
Proof. exact (containment_boost a b threshold). Qed.

Lemma containment_is_a_match_witness :
  fst (fuzzy_match_companies (Some (lit "ABC Plumbing LLC"))
         (Some (lit "ABC Plumbing")) Score.threshold) = true
  /\ (Score.nine_tenths
      <= snd (fuzzy_match_companies (Some (lit "ABC Plumbing LLC"))
                (Some (lit "ABC Plumbing")) Score.threshold))%Q.
Proof.
  apply containment_is_a_match.
  - vm_compute; discriminate.
  - vm_compute; reflexivity.
Defined.

Lemma contains_nil (s : str) : contains s [] = true.
Proof. unfold contains; destruct s; reflexivity. Qed.

(** X7: a missing or blank permit name is contained in every license
    name, so it matches every license row, and the scan over a table that
    is not empty always ends with a match. *)
Theorem blank_permit_name_always_matched (permit_company : option str)
  (license_df : list license) :
  blank permit_company = true -> license_df <> [] ->
  (forall l, row_match permit_company l = true)
  /\ fst (best_match_for permit_company license_df) <> None.
Proof.
  intros Hblank Hne.
  assert (Hall : forall l, row_match permit_company l = true).
  { intros l; unfold row_match, is_match.
    apply containment_boost; [vm_compute; discriminate|].
    rewrite (normalize_blank _ Hblank), contains_nil; reflexivity. }
  split; [exact Hall|].
  pose proof (best_match_for_inv permit_company license_df) as Hinv.
  unfold scan_inv in Hinv.
  destruct (fst (best_match_for permit_company license_df)); [discriminate|].
  destruct Hinv as [_ Hnone]; destruct license_df as [|l rest];
    [contradiction|].
  specialize (Hnone l (or_introl eq_refl)); rewrite Hall in Hnone; discriminate.
Qed.

Lemma blank_permit_name_always_matched_witness :
  fst (best_match_for None three_candidates) <> None.
Proof.
  apply (blank_permit_name_always_matched None three_candidates);
    [reflexivity | discriminate].
Defined.

(** ** The blocks of the sequence matcher are common blocks *)

Section CommonBlocks.

Import Difflib.

Variables A B : str.

Lemma ends_match_zero (i j : nat) : ends_match A B 0 i j.
Proof. unfold ends_match; simpl; repeat split; lia. Qed.

Lemma firstn_succ_skipn (L : str) (n k : nat) (x : ascii) :
  nth_error L (n + k) = Some x ->
  firstn (S k) (skipn n L) = firstn k (skipn n L) ++ [x].
Proof.
  revert L k; induction n as [|n IH]; intros L k.
  - simpl; revert L; induction k as [|k IHk]; intros [|y L]; simpl;
      try discriminate.
    + intros H; inversion H; reflexivity.
    + intros H; rewrite (IHk L H); reflexivity.
  - destruct L as [|y L]; [destruct k; discriminate|].
    simpl; apply IH.
Qed.

Lemma ends_match_succ (k i j : nat) (x : ascii) :
  ends_match A B k i j ->
  nth_error A i = Some x -> nth_error B j = Some x ->
  ends_match A B (S k) (S i) (S j).
Proof.
  intros (Hi & Hj & E) Ha Hb; unfold ends_match.
  split; [lia|]; split; [lia|].
  replace (S i - S k) with (i - k) by lia.
  replace (S j - S k) with (j - k) by lia.
  rewrite (firstn_succ_skipn A (i - k) k x), (firstn_succ_skipn B (j - k) k x), E.
  - reflexivity.
  - replace (j - k + k) with j by lia; exact Hb.
  - replace (i - k + k) with i by lia; exact Ha.
Qed.

Lemma ends_match_block (k i j : nat) :
  ends_match A B k i j -> i <= length A -> j <= length B ->
  common_block A B (mkMatch (i - k) (j - k) k).
Proof.
  intros (Hi & Hj & E) HA HB; unfold common_block; simpl.
  repeat split; [lia | lia | exact E].
Qed.

Lemma skipn_cons_nth (L : str) (j : nat) (y : ascii) (rest : str) :
  y :: rest = skipn j L -> nth_error L j = Some y /\ rest = skipn (S j) L.
Proof.
  revert L; induction j as [|j IH]; intros [|z L]; simpl; try discriminate.
  - intros H; inversion H; auto.
  - apply IH.
Qed.

Lemma scan_row_common (x : ascii) (i : nat) :
  nth_error A i = Some x ->
  forall b prev diag j best,
    b = skipn j B ->
    ends_match A B diag i j ->
    (forall t v, nth_error prev t = Some v -> ends_match A B v i (j + t + 1)) ->
    common_block A B best ->
    (forall t v,
        nth_error (fst (scan_row x b prev diag i j best)) t = Some v ->
        ends_match A B v (S i) (j + t + 1))
    /\ common_block A B (snd (scan_row x b prev diag i j best)).
Proof.
  intros Hx; induction b as [|y b IH]; intros prev diag j best Hb Hdiag Hprev Hbest.
  - simpl; split; [intros [|t] v H; discriminate H | exact Hbest].
  - apply skipn_cons_nth in Hb; destruct Hb as [Hy Hb].
    assert (Hj : j < length B) by (apply nth_error_Some; congruence).
    assert (Hi : i < length A) by (apply nth_error_Some; congruence).
    assert (Hhere : ends_match A B (hd 0 prev) i (S j)).
    { destruct prev as [|v prev]; [apply ends_match_zero|].
      replace (S j) with (j + 0 + 1) by lia; apply Hprev; reflexivity. }
    assert (Htl : forall t v, nth_error (tl prev) t = Some v ->
                              ends_match A B v i (S j + t + 1)).
    { intros t v H; replace (S j + t + 1) with (j + S t + 1) by lia.
      apply Hprev; destruct prev; [destruct t; discriminate H | exact H]. }
    cbn [scan_row]; destruct (Ascii.eqb x y) eqn:Hxy.
    + apply Ascii.eqb_eq in Hxy; subst y.
      pose proof (ends_match_succ diag i j x Hdiag Hx Hy) as Hk.
      set (best' := if m_size best <? S diag
                    then mkMatch (i + 1 - S diag) (j + 1 - S diag) (S diag)
                    else best).
      assert (Hbest' : common_block A B best').
      { unfold best'; destruct (m_size best <? S diag); [|exact Hbest].
        replace (i + 1) with (S i) by lia; replace (j + 1) with (S j) by lia.
        apply ends_match_block; assumption. }
      specialize (IH (tl prev) (hd 0 prev) (S j) best' Hb Hhere Htl Hbest').
      destruct (scan_row x b (tl prev) (hd 0 prev) i (S j) best')
        as [row best''].
      simpl in *; destruct IH as [Hrow Hb'']; split; [|exact Hb''].
      intros [|t] v H; simpl in H.
      * inversion H; subst; replace (j + 0 + 1) with (S j) by lia; exact Hk.
      * replace (j + S t + 1) with (S (j + t + 1)) by lia.
        apply Hrow; exact H.
    + specialize (IH (tl prev) (hd 0 prev) (S j) best Hb Hhere Htl Hbest).
      destruct (scan_row x b (tl prev) (hd 0 prev) i (S j) best)
        as [row best''].
      simpl in *; destruct IH as [Hrow Hb'']; split; [|exact Hb''].
      intros [|t] v H; simpl in H.
      * inversion H; subst; apply ends_match_zero.
      * replace (j + S t + 1) with (S (j + t + 1)) by lia.
        apply Hrow; exact H.
Qed.

Lemma scan_rows_common (a : str) :
  forall prev i best,
    a = skipn i A ->
    (forall t v, nth_error prev t = Some v -> ends_match A B v i (t + 1)) ->
    common_block A B best ->
    common_block A B (scan_rows a B prev i best).
Proof.
  induction a as [|x a IH]; intros prev i best Ha Hprev Hbest; [exact Hbest|].
  cbn [scan_rows].
  apply skipn_cons_nth in Ha; destruct Ha as [Hx Ha'].
  pose proof (scan_row_common x i Hx B prev 0 0 best eq_refl
                (ends_match_zero i 0) Hprev Hbest) as [Hrow Hb].
  destruct (scan_row x B prev 0 i 0 best) as [row best'].
  apply IH; assumption.
Qed.

End CommonBlocks.

(** The longest block is a block of both sequences. *)
Lemma find_longest_match_common (a b : str) :
  common_block a b (Difflib.find_longest_match a b).
Proof.
  apply (scan_rows_common a b a [] 0); [reflexivity | |].
  - intros [|t] v H; discriminate H.
  - unfold common_block; simpl; repeat split; lia.
Qed.

(** The blocks never hold more elements than either sequence. *)
Lemma matched_bounds (fuel : nat) :
  forall a b,
    Difflib.matched fuel a b <= length a
    /\ Difflib.matched fuel a b <= length b.
Proof.
  induction fuel as [|fuel IH]; intros a b; [simpl; lia|].
  cbn [Difflib.matched].
  destruct (find_longest_match_common a b) as (Ha & Hb & _).
  set (m := Difflib.find_longest_match a b) in *.
  destruct (Difflib.m_size m =? 0); [lia|].
  set (left := if (0 <? Difflib.m_a m) && (0 <? Difflib.m_b m)
               then Difflib.matched fuel (firstn (Difflib.m_a m) a)
                      (firstn (Difflib.m_b m) b)
               else 0).
  set (right := if (Difflib.m_a m + Difflib.m_size m <? length a)
                   && (Difflib.m_b m + Difflib.m_size m <? length b)
                then Difflib.matched fuel
                       (skipn (Difflib.m_a m + Difflib.m_size m) a)
                       (skipn (Difflib.m_b m + Difflib.m_size m) b)
                else 0).
  assert (Hl : left <= Difflib.m_a m /\ left <= Difflib.m_b m).
  { unfold left.
    destruct ((0 <? Difflib.m_a m) && _); [|lia].
    destruct (IH (firstn (Difflib.m_a m) a) (firstn (Difflib.m_b m) b))
      as [H1 H2].
    rewrite length_firstn in H1, H2; lia. }
  assert (Hr : right <= length a - (Difflib.m_a m + Difflib.m_size m)
               /\ right <= length b - (Difflib.m_b m + Difflib.m_size m)).
  { unfold right.
    destruct ((Difflib.m_a m + Difflib.m_size m <? length a) && _); [|lia].
    destruct (IH (skipn (Difflib.m_a m + Difflib.m_size m) a)
                (skipn (Difflib.m_b m + Difflib.m_size m) b)) as [H1 H2].
    rewrite length_skipn in H1, H2; lia. }
  lia.
Qed.

Lemma split_at_block (a : str) (i k : nat) :
  a = firstn i a ++ firstn k (skipn i a) ++ skipn (i + k) a.
Proof.
  rewrite <- (firstn_skipn i a) at 1; f_equal.
  rewrite <- (firstn_skipn k (skipn i a)) at 1; f_equal.
  rewrite skipn_skipn; f_equal; lia.
Qed.

(** Blocks that cover two sequences of the same length make them equal. *)
Lemma matched_full (fuel : nat) :
  forall a b,
    Difflib.matched fuel a b = length a -> length a = length b -> a = b.
Proof.
  induction fuel as [|fuel IH]; intros a b Hm Hlen.
  - simpl in Hm; destruct a; [|discriminate]; destruct b; [reflexivity|discriminate].
  - cbn [Difflib.matched] in Hm.
    destruct (find_longest_match_common a b) as (Ha & Hb & Hblock).
    set (m := Difflib.find_longest_match a b) in *.
    destruct (Difflib.m_size m =? 0) eqn:Hk.
    + destruct a; [|discriminate]; destruct b; [reflexivity|discriminate].
    + pose proof (matched_bounds fuel (firstn (Difflib.m_a m) a)
                    (firstn (Difflib.m_b m) b)) as [Hl1 Hl2].
      pose proof (matched_bounds fuel
                    (skipn (Difflib.m_a m + Difflib.m_size m) a)
                    (skipn (Difflib.m_b m + Difflib.m_size m) b)) as [Hr1 Hr2].
      rewrite length_firstn in Hl1, Hl2; rewrite length_skipn in Hr1, Hr2.
      assert (Hleft : firstn (Difflib.m_a m) a = firstn (Difflib.m_b m) b
                      /\ Difflib.m_a m = Difflib.m_b m).
      { destruct ((0 <? Difflib.m_a m) && (0 <? Difflib.m_b m)) eqn:Hc.
        - destruct ((Difflib.m_a m + Difflib.m_size m <? length a)
                    && (Difflib.m_b m + Difflib.m_size m <? length b));
            (split; [apply IH; rewrite ?length_firstn|]; lia).
        - apply andb_false_iff in Hc; rewrite !Nat.ltb_ge in Hc.
          destruct ((Difflib.m_a m + Difflib.m_size m <? length a)
                    && (Difflib.m_b m + Difflib.m_size m <? length b));
            assert (Difflib.m_a m = 0 /\ Difflib.m_b m = 0) as [E1 E2] by lia;
            rewrite E1, E2; auto. }
      destruct Hleft as [Hleft Hij].
      assert (Hright : skipn (Difflib.m_a m + Difflib.m_size m) a
                       = skipn (Difflib.m_b m + Difflib.m_size m) b).
      { destruct ((Difflib.m_a m + Difflib.m_size m <? length a)
                  && (Difflib.m_b m + Difflib.m_size m <? length b)) eqn:Hc.
        - destruct ((0 <? Difflib.m_a m) && (0 <? Difflib.m_b m));
            (apply IH; rewrite ?length_skipn; lia).
        - assert (length a <= Difflib.m_a m + Difflib.m_size m)
            by (apply andb_false_iff in Hc; rewrite !Nat.ltb_ge in Hc; lia).
          rewrite !skipn_all2 by lia; reflexivity. }
      rewrite (split_at_block a (Difflib.m_a m) (Difflib.m_size m)).
      rewrite (split_at_block b (Difflib.m_b m) (Difflib.m_size m)).
      rewrite Hleft, Hblock, Hright; reflexivity.
Qed.

Lemma ratio_bounds (a b : str) :
  (0 <= Difflib.ratio a b)%Q /\ (Difflib.ratio a b <= 1)%Q.
Proof.
  unfold Difflib.ratio, Difflib.calculate_ratio.
  destruct (matched_bounds (S (length a)) a b) as [Ha Hb].
  fold (Difflib.matches a b) in Ha, Hb.
  destruct (length a + length b) as [|n] eqn:E;
    [split; vm_compute; discriminate|].
  unfold Qle; cbn [Qnum Qden]; split; lia.
Qed.

(** The ratio is 1 for equal sequences only. *)
Lemma ratio_one (a b : str) : (Difflib.ratio a b == 1)%Q -> a = b.
Proof.
  unfold Difflib.ratio, Difflib.calculate_ratio.
  destruct (matched_bounds (S (length a)) a b) as [Ha Hb].
  fold (Difflib.matches a b) in Ha, Hb.
  destruct (length a + length b) as [|n] eqn:E.
  - intros _; destruct a; [|discriminate]; destruct b; [reflexivity|discriminate].
  - unfold Qeq; cbn [Qnum Qden]; intros H.
    assert (Hm : 2 * Difflib.matches a b = S n) by lia.
    apply (matched_full (S (length a))); fold (Difflib.matches a b); lia.
Qed.

(** Where the returned score comes from. *)
Lemma fuzzy_score_cases (a b : option str) (threshold : Q) :
  let na := normalize_company_name a in
  let nb := normalize_company_name b in
  let s := snd (fuzzy_match_companies a b threshold) in
  (na = nb /\ s = 1%Q)
  \/ s = Difflib.ratio na nb
  \/ s = Score.max (Difflib.ratio na nb) Score.nine_tenths
  \/ (s = Difflib.ratio (core_of na) (core_of nb)
      /\ truthy (core_of na) = true /\ truthy (core_of nb) = true).
Proof.
  cbv zeta; unfold fuzzy_match_companies.
  destruct (PyStr.eqb _ _) eqn:E;
    [left; split; [apply str_eqb_eq; exact E | reflexivity]|].
  right.
  set (similarity := if contains _ _ || contains _ _
                     then Score.max _ Score.nine_tenths else _).
  assert (Hsim : similarity
                 = Difflib.ratio (normalize_company_name a)
                     (normalize_company_name b)
                 \/ similarity
                    = Score.max (Difflib.ratio (normalize_company_name a)
                                   (normalize_company_name b))
                        Score.nine_tenths)
    by (unfold similarity; destruct (contains _ _ || contains _ _); auto).
  destruct (Score.ge similarity threshold); [cbn [snd]; tauto|].
  destruct (truthy (core_of (normalize_company_name a))) eqn:Ta;
    [|cbn [andb snd]; tauto].
  destruct (truthy (core_of (normalize_company_name b))) eqn:Tb;
    [|cbn [andb snd]; tauto].
  cbn [andb].
  destruct (Score.ge _ Score.nine_tenths); cbn [snd]; [|tauto].
  right; right; auto.
Qed.

Lemma max_nine_tenths_bounds (x : Q) :
  (0 <= x)%Q -> (x <= 1)%Q ->
  (0 <= Score.max x Score.nine_tenths)%Q
  /\ (Score.max x Score.nine_tenths <= 1)%Q.
Proof.
  intros H0 H1; unfold Score.max; destruct (Score.lt x Score.nine_tenths);
    [split; vm_compute; discriminate | auto].
Qed.

(** X8: every score lies between 0 and 1, whatever the names and the
    threshold. *)
Theorem score_between_zero_and_one (a b : option str) (threshold : Q) :
  (0 <= snd (fuzzy_match_companies a b threshold))%Q
  /\ (snd (fuzzy_match_companies a b threshold) <= 1)%Q.
Proof.
  destruct (fuzzy_score_cases a b threshold)
    as [[_ ->] | [-> | [-> | [-> _]]]].
  - split; vm_compute; discriminate.
  - apply ratio_bounds.
  - apply max_nine_tenths_bounds; apply ratio_bounds.
  - apply ratio_bounds.
Qed.

(** X9: a score of 1.0 is only given to two names with the same
    normalized form, or, through the core-name fallback, to two names with
    the same core name, which is then not empty. *)
Theorem score_one_needs_equal_names (a b : option str) (threshold : Q) :
  (snd (fuzzy_match_companies a b threshold) == 1)%Q ->
  normalize_company_name a = normalize_company_name b
  \/ (core_of (normalize_company_name a) = core_of (normalize_company_name b)
      /\ core_of (normalize_company_name a) <> []).
Proof.
  destruct (fuzzy_score_cases a b threshold)
    as [[E _] | [-> | [-> | [-> [Ta _]]]]]; intros H.
  - left; exact E.
  - left; apply ratio_one; exact H.
  - left; apply ratio_one.
    unfold Score.max in H; destruct (Score.lt _ Score.nine_tenths);
      [vm_compute in H; discriminate H | exact H].
  - right; split; [apply ratio_one; exact H|].
    intros Hnil; rewrite Hnil in Ta; discriminate.
Qed.

Lemma score_one_needs_equal_names_witness :
  normalize_company_name abc_inc
  = normalize_company_name (Some (license_company abc_llc))
  \/ (core_of (normalize_company_name abc_inc)
      = core_of (normalize_company_name (Some (license_company abc_llc)))
      /\ core_of (normalize_company_name abc_inc) <> []).
Proof.
  apply (score_one_needs_equal_names abc_inc
           (Some (license_company abc_llc)) Score.threshold).
  vm_compute; reflexivity.
Defined.

(** ** The records of the directory extractor *)

Ltac of_exact_length u :=
  repeat (destruct u as [|? u]; [solve [simpl in *; lia]|]);
  destruct u; [|simpl in *; lia].

Ltac all_in_inv :=
  unfold all_in in *;
  repeat match goal with
         | H : Forall _ (_ :: _) |- _ => inversion H; clear H; subst
         | H : Forall _ [] |- _ => clear H
         end.

Lemma phone_re_shape (t : str) :
  shaped phone_re t -> dashed_phone_shape t = true.
Proof.
  unfold phone_re, Re.exactly, Re.chr, Re.one; cbn [shaped].
  intros (u1 & v1 & -> & H1 & L1 & M1 & u2 & v2 & -> & H2 & L2 & M2
          & u3 & v3 & -> & H3 & L3 & M3 & u4 & v4 & -> & H4 & L4 & M4
          & u5 & v5 & -> & H5 & L5 & M5 & ->).
  of_exact_length u1; of_exact_length u2; of_exact_length u3; of_exact_length u4;
    of_exact_length u5.
  all_in_inv.
  repeat match goal with
         | H : Ascii.eqb "-" _ = true |- _ =>
             apply Ascii.eqb_eq in H; subst
         end.
  simpl.
  repeat match goal with H : is_digit _ = true |- _ => rewrite H; clear H end.
  reflexivity.
Qed.

Lemma lower_email_local (c : ascii) :
  email_local c = true -> address_char (lower_char c) = true.
Proof. by_cases_on_char c. Qed.

Lemma lower_email_domain (c : ascii) :
  email_domain c = true -> address_char (lower_char c) = true.
Proof. by_cases_on_char c. Qed.

Lemma lower_alpha (c : ascii) :
  is_alpha c = true -> is_lower (lower_char c) = true.
Proof. by_cases_on_char c. Qed.

Lemma all_in_lower (cls cls' : ascii -> bool) (u : str) :
  (forall c, cls c = true -> cls' (lower_char c) = true) ->
  all_in cls u -> all_in cls' (lower u).
Proof.
  intros Hc Hu; unfold lower; induction Hu; simpl; constructor; auto.
Qed.

Lemma email_re_shape (t : str) : shaped email_re t -> email_shape (lower t).
Proof.
  unfold email_re, Re.plus, Re.chr, Re.one, Re.at_least; cbn [shaped].
  intros (u1 & v1 & -> & H1 & L1 & _ & u2 & v2 & -> & H2 & L2 & M2
          & u3 & v3 & -> & H3 & L3 & _ & u4 & v4 & -> & H4 & L4 & M4
          & u5 & v5 & -> & H5 & L5 & _ & ->).
  of_exact_length u2; of_exact_length u4; all_in_inv.
  repeat match goal with
         | H : Ascii.eqb _ _ = true |- _ => apply Ascii.eqb_eq in H; subst
         end.
  exists (lower u1), (lower u3), (lower u5).
  rewrite app_nil_r; unfold lower; rewrite !map_app; simpl.
  repeat split.
  - destruct u1; [simpl in L1; lia | discriminate].
  - destruct u3; [simpl in L3; lia | discriminate].
  - rewrite length_map; exact L5.
  - apply (all_in_lower email_local); [exact lower_email_local | exact H1].
  - apply (all_in_lower email_domain); [exact lower_email_domain | exact H3].
  - apply (all_in_lower is_alpha); [exact lower_alpha | exact H5].
Qed.

Lemma company_of_single_spaced (line : str) (phone email : option str)
  (company : str) :
  company_of line phone email = Some company -> single_spaced company.
Proof.
  unfold company_of.
  destruct (0 <? find line status_marker)%Z; [|discriminate].
  intros H; inversion H; clear H.
  destruct (Re.search address_re _); [|destruct phone; [|destruct email]];
    rewrite collapse_strip_join; apply join_single_spaced, split_words.
Qed.

(** X10: the phone of an extracted record, when it has one, is written
    [ddd-ddd-dddd]. *)
Theorem extracted_phone_is_dashed (pages : list str) (r : license)
  (phone : str) :
  In r (extract_license_data_from_pdf pages) ->
  license_phone r = Some phone ->
  dashed_phone_shape phone = true.
Proof.
  intros Hr Hphone; unfold extract_license_data_from_pdf in Hr.
  apply in_flat_map in Hr; destruct Hr as (text & _ & Hr).
  apply in_flat_map in Hr; destruct Hr as (line & _ & Hr).
  apply in_option_list, extract_line_some in Hr.
  destruct Hr as (_ & _ & _ & Hp & _).
  rewrite Hp in Hphone; unfold phone_of in Hphone.
  destruct (Re.search phone_re line) as [m|] eqn:Hm; [|discriminate].
  inversion Hphone; apply phone_re_shape, search_shaped; exact Hm.
Qed.

(** X11: the e-mail of an extracted record, when it has one, reads
    [local@domain.tld] in lower case: a local part and a domain that are
    not empty, then a dot and at least two letters. *)
Theorem extracted_email_is_lower_case_address (pages : list str)
  (r : license) (email : str) :
  In r (extract_license_data_from_pdf pages) ->
  license_email r = Some email ->
  email_shape email.
Proof.
  intros Hr Hemail; unfold extract_license_data_from_pdf in Hr.
  apply in_flat_map in Hr; destruct Hr as (text & _ & Hr).
  apply in_flat_map in Hr; destruct Hr as (line & _ & Hr).
  apply in_option_list, extract_line_some in Hr.
  destruct Hr as (_ & _ & _ & _ & He & _).
  rewrite He in Hemail; unfold email_of in Hemail.
  destruct (Re.search email_re line) as [m|] eqn:Hm; [|discriminate].
  inversion Hemail; apply email_re_shape, search_shaped; exact Hm.
Qed.

(** X12: the company name of an extracted record has no whitespace at
    either end, and its only whitespace is single spaces. *)
Theorem extracted_company_single_spaced (pages : list str) (r : license) :
  In r (extract_license_data_from_pdf pages) ->
  single_spaced (license_company r).
Proof.
  intros Hr; unfold extract_license_data_from_pdf in Hr.
  apply in_flat_map in Hr; destruct Hr as (text & _ & Hr).
  apply in_flat_map in Hr; destruct Hr as (line & _ & Hr).
  apply in_option_list, extract_line_some in Hr.
  destruct Hr as (_ & _ & Hc & _).
  eapply company_of_single_spaced; exact Hc.
Qed.

Lemma extracted_phone_is_dashed_witness :
  dashed_phone_shape (lit "612-555-1212") = true.
Proof.
  apply (extracted_phone_is_dashed [directory_page] xyz).
  - vm_compute; left; reflexivity.
  - reflexivity.
Defined.

Lemma extracted_email_is_lower_case_address_witness :
  email_shape (lit "info@xyz.com").
Proof.
  apply (extracted_email_is_lower_case_address [directory_page] xyz).
  - vm_compute; left; reflexivity.
  - reflexivity.
Defined.

Lemma extracted_company_single_spaced_witness :
  single_spaced (lit "XYZ MECHANICAL INC").
Proof.
  apply (extracted_company_single_spaced [directory_page] xyz).
  vm_compute; left; reflexivity.
Defined.

Lemma split_on_acc_app (sep : ascii) (a b cur : str) :
  split_on_acc sep (a ++ sep :: b) cur
  = split_on_acc sep a cur ++ split_on sep b.
Proof.
  revert cur; induction a as [|c a IH]; intros cur; simpl.
  - rewrite Ascii.eqb_refl; reflexivity.
  - destruct (Ascii.eqb c sep); [rewrite IH; reflexivity | apply IH].
Qed.

(** X13: the extractor works line by line: a page break in place of a
    line break gives the same records, and the records of several pages
    are those of each page, in order. *)
Theorem extraction_is_per_line (before after : list str) (a b : str) :
  extract_license_data_from_pdf (before ++ [a ++ newline :: b] ++ after)
  = extract_license_data_from_pdf (before ++ [a; b] ++ after)
  /\ extract_license_data_from_pdf (before ++ after)
     = extract_license_data_from_pdf before
       ++ extract_license_data_from_pdf after.
Proof.
  unfold extract_license_data_from_pdf; split; [|apply flat_map_app].
  rewrite !flat_map_app; f_equal; f_equal.
  simpl; rewrite !app_nil_r.
  unfold split_on at 1; rewrite split_on_acc_app, flat_map_app; reflexivity.
Qed.

(** ** The phone taken from an address needs ten digits *)

Lemma digits_of_firstn (n : nat) (s : str) :
  length (digits_of (firstn n s)) <= length (digits_of s).
Proof.
  rewrite <- (firstn_skipn n s) at 2; rewrite digits_of_app, length_app; lia.
Qed.

Lemma digits_of_skipn (n : nat) (s : str) :
  length (digits_of (skipn n s)) <= length (digits_of s).
Proof.
  rewrite <- (firstn_skipn n s) at 2; rewrite digits_of_app, length_app; lia.
Qed.

Lemma first_match_none (patterns : list Re.pattern) (text : str) :
  (forall pattern, In pattern patterns -> Re.search pattern text = None) ->
  first_match patterns text = None.
Proof.
  induction patterns as [|p rest IH]; intros H; [reflexivity|].
  simpl; rewrite (H p (or_introl eq_refl)); apply IH.
  intros q Hq; apply H; right; exact Hq.
Qed.

(** X14: an address that holds fewer than ten digits in all gives no
    phone. *)
Theorem fewer_than_ten_digits_no_phone (text : str) :
  length (digits_of text) < 10 ->
  extract_phone_from_address (Some text) = None.
Proof.
  intros Hfew; unfold extract_phone_from_address.
  rewrite (first_phone_first_match phone_patterns text (fun _ H => H)).
  rewrite first_match_none; [reflexivity|].
  intros pattern Hp.
  destruct (Re.search pattern text) as [m|] eqn:Hm; [|reflexivity].
  pose proof (phone_match_ten_digits pattern text m Hp Hm) as Hten.
  unfold Re.group in Hten.
  pose proof (digits_of_firstn (snd m) (skipn (fst m) text)).
  pose proof (digits_of_skipn (fst m) text).
  lia.
Qed.

Lemma fewer_than_ten_digits_no_phone_witness :
  extract_phone_from_address (Some (lit "12 Main St, ph 612-555-1"))
  = None.
Proof.
  apply fewer_than_ten_digits_no_phone; vm_compute; lia.
Defined.

(** ** The generated e-mail *)

Lemma sub_class_drop (cls keep : ascii -> bool) (s : str) :
  all_in keep s ->
  all_in (fun c => keep c && negb (cls c)) (Re.sub_class cls [] s).
Proof.
  unfold Re.sub_class; induction 1 as [|c s Hc Hs IH]; [constructor|].
  cbn [flat_map]; destruct (cls c) eqn:E; [exact IH|].
  constructor; [rewrite Hc, E; reflexivity | exact IH].
Qed.

Lemma sub_runs_drop (cls keep : ascii -> bool) (s : str) (in_run : bool) :
  all_in keep s ->
  all_in (fun c => keep c && negb (cls c)) (Re.sub_runs_from cls [] s in_run).
Proof.
  intros Hs; revert in_run; induction Hs as [|c s Hc Hs IH]; intros in_run;
    [constructor|].
  cbn [Re.sub_runs_from]; destruct (cls c) eqn:E.
  - destruct in_run; apply IH.
  - constructor; [rewrite Hc, E; reflexivity | apply IH].
Qed.

Lemma all_in_firstn (cls : ascii -> bool) (n : nat) (s : str) :
  all_in cls s -> all_in cls (firstn n s).
Proof.
  unfold all_in; intros H; revert n.
  induction H as [|c s Hc Hs IH]; intros [|n]; simpl; try constructor;
    [exact Hc | apply IH].
Qed.

Lemma cut_suffixes_all_in (cls : ascii -> bool) (ws : list str) (s : str) :
  all_in cls s -> all_in cls (fold_left cut_suffix ws s).
Proof.
  revert s; induction ws as [|w ws IH]; intros s Hs; [exact Hs|].
  simpl; apply IH; unfold cut_suffix.
  destruct (endswith s w); [apply all_in_firstn|]; exact Hs.
Qed.

Lemma all_in_lowered (s : str) :
  all_in (fun c => negb (is_upper c)) (lower s).
Proof.
  unfold lower; induction s as [|c s IH]; simpl; constructor; [|exact IH].
  by_cases_on_char c.
Qed.

Lemma kept_is_domain_char (c : ascii) :
  negb (is_upper c)
  && negb (negb (is_word c || is_space c || Ascii.eqb c "-"))
  && negb (is_space c) = true ->
  domain_char c = true.
Proof. by_cases_on_char c. Qed.

Lemma domain_char_plain (c : ascii) : domain_char c = true -> plain_char c = true.
Proof. by_cases_on_char c. Qed.

(** The domain candidate is made of lower-case letters, digits,
    underscores and hyphens. *)
Lemma company_clean_chars (company_name : str) :
  all_in domain_char (company_clean_of company_name).
Proof.
  unfold company_clean_of; apply cut_suffixes_all_in.
  eapply Forall_impl; [exact kept_is_domain_char|].
  apply (sub_runs_drop is_space), (sub_class_drop _ (fun c => negb (is_upper c))).
  apply all_in_lowered.
Qed.

Lemma lower_word_plain (w : str) :
  all_in non_space w -> all_in plain_char (lower w).
Proof.
  unfold lower; induction 1 as [|c w Hc Hw IH]; simpl; constructor; [|exact IH].
  revert Hc; unfold non_space; by_cases_on_char c.
Qed.

Lemma hd_word (ws : list str) : Forall word ws -> all_in non_space (hd [] ws).
Proof. intros H; destruct H as [|w ws' [_ Hw] _]; [constructor | exact Hw]. Qed.

Lemma last_word (ws : list str) :
  Forall word ws -> all_in non_space (last ws []).
Proof.
  induction 1 as [|w ws [_ Hw] Hws IH]; [constructor|].
  destruct ws; [exact Hw | exact IH].
Qed.

(** X15: a generated e-mail reads [local@domain.com], where the domain
    is the domain candidate of the company name: at least three
    characters among lower-case letters, digits, underscores and
    hyphens.  The whole address holds no whitespace and no capital
    letter. *)
Theorem generated_email_shape (company_name contact_person city : option str)
  (email : str) :
  generate_email company_name contact_person city = Some email ->
  exists company local,
    company_name = Some company
    /\ email = local ++ lit "@" ++ company_clean_of company ++ lit ".com"
    /\ 3 <= length (company_clean_of company)
    /\ all_in domain_char (company_clean_of company)
    /\ all_in plain_char email.
Proof.
  unfold generate_email.
  destruct company_name as [company|]; [|discriminate].
  destruct contact_person as [contact|]; [|discriminate].
  destruct (length (company_clean_of company) <? 3) eqn:Hlen;
    [discriminate|]; apply Nat.ltb_ge in Hlen.
  destruct (existsb _ generic_names); [discriminate|]; cbn [orb].
  pose proof (company_clean_chars company) as Hclean.
  assert (Htail : all_in plain_char
                    (lit "@" ++ company_clean_of company ++ lit ".com")).
  { repeat apply all_in_app; [repeat constructor | | repeat constructor].
    eapply Forall_impl; [exact domain_char_plain | exact Hclean]. }
  destruct (2 <=? length (split contact)).
  - destruct (looks_like_entity contact); [discriminate|].
    intros H; injection H as <-.
    exists company,
      (lower (hd [] (split contact)) ++ lit "."
       ++ lower (last (split contact) [])).
    split; [reflexivity|]; split; [rewrite <- !app_assoc; reflexivity|].
    split; [exact Hlen|]; split; [exact Hclean|].
    apply all_in_app; [apply lower_word_plain, hd_word, split_words|].
    constructor; [reflexivity|].
    apply all_in_app; [apply lower_word_plain, last_word, split_words|].
    exact Htail.
  - intros H; injection H as <-.
    exists company, (lit "info").
    split; [reflexivity|]; split; [reflexivity|].
    split; [exact Hlen|]; split; [exact Hclean|].
    change (all_in plain_char
              (lit "info" ++ lit "@" ++ company_clean_of company ++ lit ".com")).
    apply all_in_app; [repeat constructor | exact Htail].
Qed.

Lemma generated_email_shape_witness :
  exists company local,
    Some (lit "Acme Plumbing, Inc.") = Some company
    /\ lit "john.smith@acme.com"
       = local ++ lit "@" ++ company_clean_of company ++ lit ".com"
    /\ 3 <= length (company_clean_of company)
    /\ all_in domain_char (company_clean_of company)
    /\ all_in plain_char (lit "john.smith@acme.com").
Proof.
  apply (generated_email_shape (Some (lit "Acme Plumbing, Inc."))
           (Some (lit "John Q. Smith")) None).
  vm_compute; reflexivity.
Defined.

(** ** The first contact pass *)

Lemma truthy_some (o : option str) : truthy_opt o = true -> o <> None.
Proof. destruct o; [discriminate | intros H; discriminate H]. Qed.

(** The columns the pass writes, by the four tests of the loop body. *)
Lemma populate_columns
  (search : option str -> option str * option str) (r : contact) :
  let existing_phone := fst (search (Company_Name r)) in
  let existing_email := snd (search (Company_Name r)) in
  let phone := extract_phone_from_address (Address r) in
  let generated_email :=
    generate_email (Company_Name r) (Contact_Person r) (City r) in
  let p := populate_with search r in
  Phone_Number p
  = (if truthy_opt existing_phone then existing_phone
     else if truthy_opt phone then phone else None)
  /\ Email p
     = (if truthy_opt existing_email then existing_email
        else if truthy_opt generated_email then generated_email else None)
  /\ Contact_Info_Source p
     = (if truthy_opt existing_phone || truthy_opt existing_email
        then Some existing_database
        else if truthy_opt phone then Some extracted_from_address
             else if truthy_opt generated_email then Some generated
                  else None)
  /\ Contact_Confidence p = Some (confidence_of (Contact_Info_Source p)).
Proof.
  cbv zeta; unfold populate_with.
  destruct (search (Company_Name r)) as [existing_phone existing_email].
  cbn [fst snd].
  destruct (truthy_opt existing_phone);
    [| destruct (truthy_opt (extract_phone_from_address (Address r)))];
    destruct (truthy_opt existing_email);
    try destruct (truthy_opt (generate_email _ _ _));
    repeat split; reflexivity.
Qed.

(** X16: whatever the lookup of existing data returns, a row of the
    first pass has no source exactly when it has neither phone nor e-mail,
    and exactly then its confidence is [None]. *)
Theorem no_source_iff_no_contact
  (search : option str -> option str * option str) (r : contact) :
  (Contact_Info_Source (populate_with search r) = None
   <-> Phone_Number (populate_with search r) = None
       /\ Email (populate_with search r) = None)
  /\ (Contact_Confidence (populate_with search r) = Some (lit "None")
      <-> Contact_Info_Source (populate_with search r) = None).
Proof.
  destruct (populate_columns search r) as (Hp & He & Hs & Hc).
  rewrite Hc, Hs, Hp, He; clear Hp He Hs Hc.
  destruct (truthy_opt (fst (search (Company_Name r)))) eqn:H1;
    destruct (truthy_opt (snd (search (Company_Name r)))) eqn:H2;
    destruct (truthy_opt (extract_phone_from_address (Address r))) eqn:H3;
    destruct (truthy_opt (generate_email (Company_Name r) (Contact_Person r)
                            (City r))) eqn:H4;
    cbn [orb];
    repeat match goal with
           | H : truthy_opt ?o = true |- _ => apply truthy_some in H
           end;
    (split; split; [intros H; try discriminate H; auto
                   | intros [Hp He]; congruence || reflexivity
                   | vm_compute; intros H; discriminate H || reflexivity
                   | intros H; discriminate H || reflexivity]).
Qed.

Lemma first_phone_truthy (patterns : list Re.pattern) (text : str) :
  truthy_opt (first_phone patterns text)
  = match first_phone patterns text with Some _ => true | None => false end.
Proof.
  induction patterns as [|p rest IH]; [reflexivity|].
  simpl; destruct (Re.search p text); [|exact IH].
  destruct (_ =? 10); [reflexivity | exact IH].
Qed.

Lemma extracted_phone_truthy (address_str : option str) :
  (if truthy_opt (extract_phone_from_address address_str)
   then extract_phone_from_address address_str else None)
  = extract_phone_from_address address_str.
Proof.
  destruct address_str as [text|]; [|reflexivity].
  unfold extract_phone_from_address; rewrite first_phone_truthy.
  destruct (first_phone phone_patterns text); reflexivity.
Qed.

Lemma truthy_app_cons (u v : str) (c : ascii) : truthy (u ++ c :: v) = true.
Proof. destruct u; reflexivity. Qed.

Lemma generated_email_truthy (company_name contact_person city : option str) :
  (if truthy_opt (generate_email company_name contact_person city)
   then generate_email company_name contact_person city else None)
  = generate_email company_name contact_person city.
Proof.
  unfold generate_email.
  destruct company_name as [company|]; [|reflexivity].
  destruct contact_person as [contact|]; [|reflexivity].
  destruct (_ || _); [reflexivity|].
  destruct (2 <=? _); [destruct (looks_like_entity contact); [reflexivity|]|];
    cbn [truthy_opt].
  - change (lit "." ++ ?x) with ("."%char :: x).
    rewrite truthy_app_cons; reflexivity.
  - reflexivity.
Qed.

(** X17: with the placeholder lookup of the script, the phone of the
    first pass is the phone taken from the address and the e-mail is the
    generated one; the source is [Extracted from Address] when there is a
    phone, else [Generated] when there is an e-mail, else none, and the
    confidence is [Medium], [Low] or [None] accordingly, never [High]. *)
Theorem first_pass_columns (r : contact) :
  Phone_Number (populate r) = extract_phone_from_address (Address r)
  /\ Email (populate r)
     = generate_email (Company_Name r) (Contact_Person r) (City r)
  /\ Contact_Info_Source (populate r)
     = match Phone_Number (populate r), Email (populate r) with
       | Some _, _ => Some extracted_from_address
       | None, Some _ => Some generated
       | None, None => None
       end
  /\ Contact_Confidence (populate r)
     = match Phone_Number (populate r), Email (populate r) with
       | Some _, _ => Some (lit "Medium")
       | None, Some _ => Some (lit "Low")
       | None, None => Some (lit "None")
       end.
Proof.
  unfold populate.
  destruct (populate_columns search_existing_contact_data r)
    as (Hp & He & Hs & Hc).
  cbn [search_existing_contact_data fst snd truthy_opt orb] in Hp, He, Hs.
  rewrite extracted_phone_truthy in Hp; rewrite generated_email_truthy in He.
  rewrite Hc, Hs, Hp, He; clear Hp He Hs Hc.
  repeat split.
  - destruct (extract_phone_from_address (Address r)) as [p|] eqn:E1.
    + pose proof (extracted_phone_truthy (Address r)) as H.
      rewrite E1 in H; destruct (truthy_opt (Some p)); [reflexivity|discriminate].
    + destruct (generate_email _ _ _) as [e|] eqn:E2; [|reflexivity].
      pose proof (generated_email_truthy (Company_Name r) (Contact_Person r)
                    (City r)) as H.
      rewrite E2 in H; destruct (truthy_opt (Some e));
        [reflexivity | discriminate].
  - destruct (extract_phone_from_address (Address r)) as [p|] eqn:E1.
    + pose proof (extracted_phone_truthy (Address r)) as H.
      rewrite E1 in H; destruct (truthy_opt (Some p)); [reflexivity|discriminate].
    + destruct (generate_email _ _ _) as [e|] eqn:E2; [|reflexivity].
      pose proof (generated_email_truthy (Company_Name r) (Contact_Person r)
                    (City r)) as H.
      rewrite E2 in H; destruct (truthy_opt (Some e));
        [reflexivity | discriminate].
Qed.

(** ** The rows of the license pass *)

Lemma best_match_in (permit_company : option str) (license_df : list license)
  (b : license) :
  fst (best_match_for permit_company license_df) = Some b -> In b license_df.
Proof.
  intros H; pose proof (best_match_for_inv permit_company license_df) as Hinv.
  unfold scan_inv in Hinv; rewrite H in Hinv.
  destruct Hinv as (_ & _ & before & after & -> & _).
  apply in_or_app; right; left; reflexivity.
Qed.

Lemma some_if_truthy_some (o : option str) (x : str) :
  some_if_truthy o = Some x -> o = Some x.
Proof.
  unfold some_if_truthy; destruct (truthy_opt o); [auto | discriminate].
Qed.

(** What a row with a phone looks like after the license pass. *)
Lemma updated_row_with_phone (license_df : list license) (r0 : row)
  (phone : str) :
  MatchPlumberLicenses.Phone_Number (update_columns (match_row license_df r0))
  = Some phone ->
  MatchPlumberLicenses.Contact_Info_Source
    (update_columns (match_row license_df r0)) = Some (lit "Licensed Data")
  /\ MatchPlumberLicenses.Contact_Confidence
       (update_columns (match_row license_df r0)) = Some (lit "High")
  /\ exists l,
      In l license_df /\ license_phone l = Some phone
      /\ Matched_License_Company (update_columns (match_row license_df r0))
         = Some (license_company l).
Proof.
  unfold match_row.
  destruct (best_match_for (MatchPlumberLicenses.Company_Name r0) license_df)
    as [[b|] best_score] eqn:E; unfold update_columns; simpl;
    [|discriminate].
  intros H; rewrite H; simpl.
  repeat split.
  exists b; repeat split.
  - apply (best_match_in (MatchPlumberLicenses.Company_Name r0)).
    rewrite E; reflexivity.
  - apply some_if_truthy_some; exact H.
Qed.

(** X18: after the license pass a row has a phone only if it was matched
    to a license row with that phone; its source is then
    [Licensed Data] and its confidence [High].  So is every row of the
    call-ready file. *)
Theorem rows_with_phone_are_licensed (df : list row)
  (license_df : list license) (r : row) (phone : str) :
  In r (match_and_update_contacts df license_df) ->
  MatchPlumberLicenses.Phone_Number r = Some phone ->
  MatchPlumberLicenses.Contact_Info_Source r = Some (lit "Licensed Data")
  /\ MatchPlumberLicenses.Contact_Confidence r = Some (lit "High")
  /\ exists l,
      In l license_df /\ license_phone l = Some phone
      /\ Matched_License_Company r = Some (license_company l).
Proof.
  unfold match_and_update_contacts; intros Hr Hphone.
  apply in_map_iff in Hr; destruct Hr as (r0 & <- & _).
  apply updated_row_with_phone; exact Hphone.
Qed.

Lemma rows_with_phone_are_licensed_witness :
  MatchPlumberLicenses.Contact_Confidence
    (update_columns (match_row [abc_llc] abc_row))
  = Some (lit "High").
Proof.
  apply (rows_with_phone_are_licensed [abc_row] [abc_llc] _
           (lit "612-555-1212")).
  - left; reflexivity.
  - vm_compute; reflexivity.
Defined.

(** ** Stable sorting *)

Section SortFacts.

Variable A : Type.
Variable before : A -> A -> bool.

Lemma insert_permutation (x : A) (l : list A) :
  Permutation (Pandas.insert before x l) (x :: l).
Proof.
  induction l as [|y l IH]; simpl; [apply Permutation_refl|].
  destruct (before x y); [apply Permutation_refl|].
  eapply Permutation_trans; [apply perm_skip, IH | apply perm_swap].
Qed.

Lemma sort_values_permutation (l : list A) :
  Permutation (Pandas.sort_values before l) l.
Proof.
  induction l as [|x l IH]; simpl; [apply Permutation_refl|].
  eapply Permutation_trans; [apply insert_permutation | apply perm_skip, IH].
Qed.

Hypothesis before_total :
  forall x y, before x y = false -> before y x = true.

Hypothesis before_trans :
  forall x y z, before x y = true -> before y z = true -> before x z = true.

Lemma insert_sorted (x : A) (l : list A) :
  StronglySorted (fun a b => before a b = true) l ->
  StronglySorted (fun a b => before a b = true) (Pandas.insert before x l).
Proof.
  induction 1 as [|y l Hl IH Hy]; simpl; [repeat constructor|].
  destruct (before x y) eqn:E.
  - constructor; [constructor; assumption|].
    constructor; [exact E|].
    eapply Forall_impl; [|exact Hy]; intros z Hz.
    eapply before_trans; eassumption.
  - constructor; [exact IH|].
    eapply Permutation_Forall;
      [apply Permutation_sym, insert_permutation|].
    constructor; [apply before_total; exact E | exact Hy].
Qed.

Lemma sort_values_sorted (l : list A) :
  StronglySorted (fun a b => before a b = true) (Pandas.sort_values before l).
Proof.
  induction l as [|x l IH]; simpl; [constructor | apply insert_sorted, IH].
Qed.

End SortFacts.

Lemma filter_none {A : Type} (p : A -> bool) (l : list A) :
  Forall (fun x => p x = false) l ->
  filter p l = [] /\ filter (fun x => negb (p x)) l = l.
Proof.
  induction 1 as [|x l Hx Hl [IH1 IH2]]; [split; reflexivity|].
  simpl; rewrite Hx; simpl; rewrite IH1, IH2; split; reflexivity.
Qed.

(** In a sorted list whose order never puts a row without the mark in
    front of a row with it, the marked rows are a prefix. *)
Lemma sorted_marked_first {A : Type} (R : A -> A -> Prop) (p : A -> bool)
  (l : list A) :
  (forall x y, R x y -> p y = true -> p x = true) ->
  StronglySorted R l ->
  l = filter p l ++ filter (fun x => negb (p x)) l.
Proof.
  intros Hmark; induction 1 as [|x l Hl IH Hx]; [reflexivity|].
  simpl; destruct (p x) eqn:Hp; simpl; [rewrite <- IH; reflexivity|].
  assert (Hnone : Forall (fun y => p y = false) l).
  { eapply Forall_impl; [|exact Hx]; intros y Hxy.
    destruct (p y) eqn:Hy; [|reflexivity].
    rewrite (Hmark x y Hxy Hy) in Hp; discriminate. }
  destruct (filter_none p l Hnone) as [-> ->]; reflexivity.
Qed.

Lemma filter_length_permutation {A : Type} (p : A -> bool) (l l' : list A) :
  Permutation l l' -> length (filter p l) = length (filter p l').
Proof.
  induction 1 as [|x l l' _ IH|x y l|l l' l'' _ IH1 _ IH2]; simpl;
    [reflexivity | destruct (p x); simpl; rewrite IH; reflexivity
    | destruct (p x), (p y); reflexivity | congruence].
Qed.

Lemma sorted_app_order {A : Type} (R : A -> A -> Prop) (l1 l2 : list A) :
  StronglySorted R (l1 ++ l2) ->
  forall x y, In x l1 -> In y l2 -> R x y.
Proof.
  induction l1 as [|z l1 IH]; intros Hs x y Hx Hy; [contradiction|].
  simpl in Hs; inversion Hs as [|? ? Hs' Hz]; subst.
  destruct Hx as [<-|Hx]; [|apply IH; assumption].
  apply (proj1 (Forall_forall _ _) Hz), in_or_app; right; exact Hy.
Qed.

Lemma sorted_firstn {A : Type} (R : A -> A -> Prop) (n : nat) (l : list A) :
  StronglySorted R l -> StronglySorted R (firstn n l).
Proof.
  intros H; revert n; induction H as [|x l Hl IH Hx]; intros [|n]; simpl;
    try constructor; [apply IH|].
  apply Forall_forall; intros y Hy.
  apply (proj1 (Forall_forall _ _) Hx).
  rewrite <- (firstn_skipn n l); apply in_or_app; left; exact Hy.
Qed.

(** ** The final table, the call-ready file and the statistics *)

Lemma sort_before_total (x y : MatchReport.table_row) :
  MatchReport.sort_before x y = false -> MatchReport.sort_before y x = true.
Proof.
  unfold MatchReport.sort_before, MatchReport.has_both.
  destruct (MatchReport.has_phone x), (MatchReport.has_phone y),
    (MatchReport.has_email x), (MatchReport.has_email y); simpl;
    try discriminate; try reflexivity;
    rewrite Z.leb_gt, Z.leb_le; lia.
Qed.

Lemma sort_before_trans (x y z : MatchReport.table_row) :
  MatchReport.sort_before x y = true -> MatchReport.sort_before y z = true ->
  MatchReport.sort_before x z = true.
Proof.
  unfold MatchReport.sort_before, MatchReport.has_both.
  destruct (MatchReport.has_phone x), (MatchReport.has_phone y),
    (MatchReport.has_phone z), (MatchReport.has_email x),
    (MatchReport.has_email y), (MatchReport.has_email z); simpl;
    try discriminate; try reflexivity;
    rewrite !Z.leb_le; lia.
Qed.

Lemma sort_before_phone (x y : MatchReport.table_row) :
  MatchReport.sort_before x y = true ->
  MatchReport.has_phone y = true -> MatchReport.has_phone x = true.
Proof.
  unfold MatchReport.sort_before, MatchReport.has_both.
  destruct (MatchReport.has_phone x), (MatchReport.has_phone y),
    (MatchReport.has_email x), (MatchReport.has_email y); simpl;
    try discriminate; reflexivity.
Qed.

(** X19: the table written by the license pass holds the updated rows,
    each once, in the order of the sort keys; every row with a phone comes
    before every row without one, so the call-ready file is the top part
    of that table. *)
Theorem call_ready_is_top_of_table (df : list MatchReport.table_row)
  (license_df : list license) :
  Permutation (MatchReport.verified_table df license_df)
    (map (MatchReport.update_table_row license_df) df)
  /\ StronglySorted (fun x y => MatchReport.sort_before x y = true)
       (MatchReport.verified_table df license_df)
  /\ MatchReport.verified_table df license_df
     = MatchReport.call_ready df license_df
       ++ filter (fun t => negb (MatchReport.has_phone t))
            (MatchReport.verified_table df license_df).
Proof.
  unfold MatchReport.call_ready, MatchReport.verified_table.
  pose proof (sort_values_sorted _ MatchReport.sort_before sort_before_total
                sort_before_trans
                (map (MatchReport.update_table_row license_df) df)) as Hs.
  split; [apply sort_values_permutation|]; split; [exact Hs|].
  apply (sorted_marked_first _ MatchReport.has_phone _ sort_before_phone Hs).
Qed.

Lemma updated_has_phone (license_df : list license)
  (t : MatchReport.table_row) :
  MatchReport.has_phone (MatchReport.update_table_row license_df t)
  = match best_match_for
            (MatchPlumberLicenses.Company_Name (MatchReport.columns t))
            license_df with
    | (Some best_match, _) => truthy_opt (license_phone best_match)
    | (None, _) => false
    end.
Proof.
  unfold MatchReport.has_phone, MatchReport.update_table_row, match_row.
  cbn [MatchReport.columns].
  destruct (best_match_for _ license_df) as [[b|] s]; [|reflexivity].
  unfold update_columns, some_if_truthy; simpl.
  destruct (license_phone b) as [p|]; [|reflexivity].
  simpl; destruct (truthy p); reflexivity.
Qed.

Lemma count_row_step (phone_nan email_nan : bool)
  (license_df : list license) (stats : MatchReport.match_stats)
  (t : MatchReport.table_row) :
  let next :=
    MatchReport.count_row phone_nan email_nan license_df stats
      (MatchPlumberLicenses.Company_Name (MatchReport.columns t)) in
  let with_phone :=
    MatchReport.count
      (MatchReport.has_phone (MatchReport.update_table_row license_df t)) in
  MatchReport.exact_matches next + MatchReport.fuzzy_matches next
  + MatchReport.no_matches next
  = MatchReport.exact_matches stats + MatchReport.fuzzy_matches stats
    + MatchReport.no_matches stats + 1
  /\ MatchReport.phone_added stats + with_phone
     <= MatchReport.phone_added next
  /\ (phone_nan = false ->
      MatchReport.phone_added next
      = MatchReport.phone_added stats + with_phone)
  /\ MatchReport.phone_added next + MatchReport.exact_matches stats
     + MatchReport.fuzzy_matches stats
     <= MatchReport.phone_added stats + MatchReport.exact_matches next
        + MatchReport.fuzzy_matches next
  /\ MatchReport.email_added next + MatchReport.exact_matches stats
     + MatchReport.fuzzy_matches stats
     <= MatchReport.email_added stats + MatchReport.exact_matches next
        + MatchReport.fuzzy_matches next.
Proof.
  cbv zeta; rewrite updated_has_phone; unfold MatchReport.count_row.
  destruct (best_match_for _ license_df) as [[b|] s];
    cbn [MatchReport.exact_matches MatchReport.fuzzy_matches
         MatchReport.no_matches MatchReport.phone_added
         MatchReport.email_added].
  - unfold MatchReport.cell_true, truthy_opt.
    destruct (Qeq_bool s 1), (license_phone b) as [p|],
      (license_email b) as [e|], phone_nan, email_nan;
      try destruct (truthy p); try destruct (truthy e);
      simpl; repeat split; intros; try discriminate; lia.
  - simpl; repeat split; intros; lia.
Qed.

Lemma filter_cons_length (A : Type) (f : A -> bool) (x : A) (l : list A) :
  length (filter f (x :: l))
  = MatchReport.count (f x) + length (filter f l).
Proof. simpl; destruct (f x); reflexivity. Qed.

Lemma match_statistics_fold (phone_nan email_nan : bool)
  (license_df : list license) (df : list MatchReport.table_row) :
  forall stats,
    let final :=
      fold_left
        (fun stats t =>
           MatchReport.count_row phone_nan email_nan license_df stats
             (MatchPlumberLicenses.Company_Name (MatchReport.columns t)))
        df stats in
    let with_phone :=
      length (filter MatchReport.has_phone
                (map (MatchReport.update_table_row license_df) df)) in
    MatchReport.exact_matches final + MatchReport.fuzzy_matches final
    + MatchReport.no_matches final
    = MatchReport.exact_matches stats + MatchReport.fuzzy_matches stats
      + MatchReport.no_matches stats + length df
    /\ MatchReport.phone_added stats + with_phone
       <= MatchReport.phone_added final
    /\ (phone_nan = false ->
        MatchReport.phone_added final
        = MatchReport.phone_added stats + with_phone)
    /\ MatchReport.phone_added final + MatchReport.exact_matches stats
       + MatchReport.fuzzy_matches stats
       <= MatchReport.phone_added stats + MatchReport.exact_matches final
          + MatchReport.fuzzy_matches final
    /\ MatchReport.email_added final + MatchReport.exact_matches stats
       + MatchReport.fuzzy_matches stats
       <= MatchReport.email_added stats + MatchReport.exact_matches final
          + MatchReport.fuzzy_matches final.
Proof.
  induction df as [|t df IH]; intros stats; cbv zeta.
  - simpl; repeat split; intros; lia.
  - cbn [fold_left map]; rewrite filter_cons_length.
    pose proof (count_row_step phone_nan email_nan license_df stats t)
      as Hstep.
    cbv zeta in Hstep.
    specialize (IH (MatchReport.count_row phone_nan email_nan license_df
                      stats
                      (MatchPlumberLicenses.Company_Name
                         (MatchReport.columns t)))).
    cbv zeta in IH.
    destruct Hstep as (S1 & S2 & S3 & S4 & S5),
      IH as (H1 & H2 & H3 & H4 & H5).
    cbn [length]; repeat split; try lia.
    intros Hnan; specialize (S3 Hnan); specialize (H3 Hnan); lia.
Qed.

(** X20: when the loop ends, exact, fuzzy and missing matches add up to
    the number of rows, and neither the phones nor the e-mails counted as
    added outnumber the matches.  The phones counted as added are at
    least the rows of the call-ready file: a matched license row without
    a phone is counted too when the table gives its missing phone as
    [NaN], which is true, and adds no row to the file.  When the table
    gives a missing phone as [None], the count is exactly the number of
    rows of the call-ready file. *)
Theorem match_statistics_add_up (phone_nan email_nan : bool)
  (df : list MatchReport.table_row) (license_df : list license) :
  let stats :=
    MatchReport.match_statistics phone_nan email_nan df license_df in
  MatchReport.exact_matches stats + MatchReport.fuzzy_matches stats
  + MatchReport.no_matches stats = length df
  /\ length (MatchReport.call_ready df license_df)
     <= MatchReport.phone_added stats
  /\ MatchReport.phone_added stats
     <= MatchReport.exact_matches stats + MatchReport.fuzzy_matches stats
  /\ MatchReport.email_added stats
     <= MatchReport.exact_matches stats + MatchReport.fuzzy_matches stats
  /\ MatchReport.phone_added
       (MatchReport.match_statistics false email_nan df license_df)
     = length (MatchReport.call_ready df license_df).
Proof.
  cbv zeta; unfold MatchReport.match_statistics.
  assert (Hready :
    length (MatchReport.call_ready df license_df)
    = length (filter MatchReport.has_phone
                (map (MatchReport.update_table_row license_df) df))).
  { unfold MatchReport.call_ready, MatchReport.verified_table.
    symmetry.
    apply filter_length_permutation, Permutation_sym,
      sort_values_permutation. }
  destruct (match_statistics_fold phone_nan email_nan license_df df
              (MatchReport.mkStats 0 0 0 0 0)) as (H1 & H2 & _ & H4 & H5).
  destruct (match_statistics_fold false email_nan license_df df
              (MatchReport.mkStats 0 0 0 0 0)) as (_ & _ & H3 & _ & _).
  cbv zeta in H1, H2, H3, H4, H5.
  cbn [MatchReport.exact_matches MatchReport.fuzzy_matches
       MatchReport.no_matches MatchReport.phone_added
       MatchReport.email_added] in H1, H2, H3, H4, H5.
  specialize (H3 eq_refl).
  rewrite Hready; repeat split; lia.
Qed.

(** The counts differ on a matched license row without a phone when the
    table, which holds a phone on another row, gives the missing phone as
    [NaN]. *)
Lemma phone_count_with_nan :
  let t := MatchReport.mkTableRow abc_row 12 in
  let license_df :=
    [mkLicense (lit "ABC Inc") None (Some (lit "office@abc.com"));
     mkLicense (lit "Lake Street Mechanical") (Some (lit "612-555-0100"))
       None] in
  MatchReport.phone_added
    (MatchReport.match_statistics true true [t] license_df) = 1
  /\ MatchReport.phone_added
       (MatchReport.match_statistics false false [t] license_df) = 0
  /\ MatchReport.call_ready [t] license_df = [].
Proof. vm_compute; repeat split; reflexivity. Qed.

(** ** The priority call list *)

Lemma priority_before_total (x y : PriorityList.plumber) :
  PriorityList.priority_before x y = false ->
  PriorityList.priority_before y x = true.
Proof.
  unfold PriorityList.priority_before, PriorityList.days_before.
  destruct (PriorityList.Days_Since_Last_Permit x) as [a|],
    (PriorityList.Days_Since_Last_Permit y) as [b|];
    rewrite !orb_false_iff, !orb_true_iff, !andb_false_iff, !andb_true_iff,
      ?Z.ltb_ge, ?Z.ltb_lt, ?Z.eqb_neq, ?Z.eqb_eq, ?Z.leb_gt, ?Z.leb_le;
    intros H; intuition (try discriminate; try lia).
Qed.

Lemma priority_before_trans (x y z : PriorityList.plumber) :
  PriorityList.priority_before x y = true ->
  PriorityList.priority_before y z = true ->
  PriorityList.priority_before x z = true.
Proof.
  unfold PriorityList.priority_before, PriorityList.days_before.
  destruct (PriorityList.Days_Since_Last_Permit x) as [a|],
    (PriorityList.Days_Since_Last_Permit y) as [b|],
    (PriorityList.Days_Since_Last_Permit z) as [c|];
    rewrite !orb_true_iff, !andb_true_iff,
      ?Z.ltb_lt, ?Z.eqb_eq, ?Z.leb_le;
    intros H1 H2; intuition (try discriminate; try lia).
Qed.

Lemma priority_before_permits (x y : PriorityList.plumber) :
  PriorityList.priority_before x y = true ->
  (PriorityList.Total_Permits y <= PriorityList.Total_Permits x)%Z.
Proof.
  unfold PriorityList.priority_before.
  rewrite orb_true_iff, andb_true_iff, Z.ltb_lt, Z.eqb_eq; lia.
Qed.

(** X21: the priority list holds at most fifty rows, all of the active
    table and all with a last permit within 90 days, in the order of the
    sort; and no very active row left out has more permits than a row
    of the list. *)
Theorem priority_list_is_top_fifty (active_df : list PriorityList.plumber) :
  let listed := PriorityList.priority_list active_df in
  length listed <= 50
  /\ (forall p, In p listed ->
        In p active_df
        /\ exists d, PriorityList.Days_Since_Last_Permit p = Some d
                     /\ (d <= 90)%Z)
  /\ StronglySorted (fun x y => PriorityList.priority_before x y = true)
       listed
  /\ (forall p q,
        In p listed -> In q active_df ->
        PriorityList.very_active q = true -> ~ In q listed ->
        (PriorityList.Total_Permits q <= PriorityList.Total_Permits p)%Z).
Proof.
  cbv zeta; unfold PriorityList.priority_list.
  set (sorted := Pandas.sort_values PriorityList.priority_before
                   (filter PriorityList.very_active active_df)).
  assert (Hperm : Permutation sorted
                    (filter PriorityList.very_active active_df))
    by apply sort_values_permutation.
  assert (Hsorted : StronglySorted
                      (fun x y => PriorityList.priority_before x y = true)
                      sorted)
    by (apply sort_values_sorted;
        [exact priority_before_total | exact priority_before_trans]).
  assert (Hin : forall p, In p sorted <->
                          In p active_df /\ PriorityList.very_active p = true).
  { intros p; rewrite <- filter_In; split; apply Permutation_in;
      [exact Hperm | apply Permutation_sym; exact Hperm]. }
  assert (Hfirst : forall p, In p (firstn 50 sorted) -> In p sorted).
  { intros p Hp; rewrite <- (firstn_skipn 50 sorted).
    apply in_or_app; left; exact Hp. }
  split; [apply firstn_le_length|].
  split; [|split; [apply sorted_firstn; exact Hsorted|]].
  - intros p Hp; apply Hfirst, Hin in Hp; destruct Hp as [Hp Hv].
    split; [exact Hp|].
    unfold PriorityList.very_active in Hv.
    destruct (PriorityList.Days_Since_Last_Permit p) as [d|];
      [|discriminate].
    exists d; split; [reflexivity | apply Z.leb_le; exact Hv].
  - intros p q Hp Hq Hv Hout.
    apply priority_before_permits.
    assert (Hq' : In q sorted) by (apply Hin; split; assumption).
    rewrite <- (firstn_skipn 50 sorted) in Hq', Hsorted.
    apply in_app_or in Hq'; destruct Hq' as [Hq'|Hq']; [contradiction|].
    exact (sorted_app_order _ _ _ Hsorted p q Hp Hq').
Qed.

(** ** Activity levels *)

Lemma activity_level_bins (d : Z) :
  ((d <= 0)%Z /\ ExtractPlumberContacts.activity_level (Some d) = None)
  \/ ((0 < d <= 30)%Z
      /\ ExtractPlumberContacts.activity_level (Some d)
         = Some (lit "Very Active (< 30 days)"))
  \/ ((30 < d <= 90)%Z
      /\ ExtractPlumberContacts.activity_level (Some d)
         = Some (lit "Active (30-90 days)"))
  \/ ((90 < d <= 180)%Z
      /\ ExtractPlumberContacts.activity_level (Some d)
         = Some (lit "Moderate (90-180 days)"))
  \/ ((180 < d <= 365)%Z
      /\ ExtractPlumberContacts.activity_level (Some d)
         = Some (lit "Low (180-365 days)"))
  \/ ((365 < d)%Z
      /\ ExtractPlumberContacts.activity_level (Some d)
         = Some (lit "Inactive (> 1 year)")).
Proof.
  unfold ExtractPlumberContacts.activity_level.
  destruct (Z.leb_spec d 0) as [H0|H0]; [left; split; [lia | reflexivity]|].
  destruct (Z.leb_spec d 30) as [H1|H1];
    [right; left; split; [lia | reflexivity]|].
  destruct (Z.leb_spec d 90) as [H2|H2];
    [right; right; left; split; [lia | reflexivity]|].
  destruct (Z.leb_spec d 180) as [H3|H3];
    [right; right; right; left; split; [lia | reflexivity]|].
  destruct (Z.leb_spec d 365) as [H4|H4];
    [right; right; right; right; left; split; [lia | reflexivity]|].
  right; right; right; right; right; split; [lia | reflexivity].
Qed.

(** X22: a plumber gets an activity level exactly when the day count is
    known and at least 1; the rows kept for the active-only sheet (at most
    180 days) are those labelled [Very Active], [Active] or [Moderate],
    together with the unlabelled rows of a count of 0 or less. *)
Theorem activity_level_and_active_sheet (days : option Z) :
  (ExtractPlumberContacts.activity_level days = None
   <-> days = None \/ exists d, days = Some d /\ (d <= 0)%Z)
  /\ (ExtractPlumberContacts.active_only days = true
      <-> In (ExtractPlumberContacts.activity_level days)
            [Some (lit "Very Active (< 30 days)");
             Some (lit "Active (30-90 days)");
             Some (lit "Moderate (90-180 days)")]
          \/ exists d, days = Some d /\ (d <= 0)%Z).
Proof.
  destruct days as [d|].
  - cbn [ExtractPlumberContacts.active_only]; rewrite Z.leb_le.
    assert (Hex : (exists d', Some d = Some d' /\ (d' <= 0)%Z)
                  <-> (d <= 0)%Z).
    { split; [intros (d' & E & Hd'); injection E as ->; exact Hd'|].
      intros Hd; exists d; split; [reflexivity | exact Hd]. }
    rewrite Hex.
    destruct (activity_level_bins d)
      as [[Hd E]|[[Hd E]|[[Hd E]|[[Hd E]|[[Hd E]|[Hd E]]]]]];
      rewrite E; cbn [In]; (split; split);
      try solve [ intros; try reflexivity; tauto | intros; lia
                | intros [H|H]; [discriminate H | lia]
                | intros H; discriminate H ].
    all: try solve
      [ intros [H|H]; [|lia];
        repeat match goal with
               | H : _ \/ _ |- _ => destruct H as [H|H]
               end; try discriminate H; try contradiction; lia ].
  - cbn [ExtractPlumberContacts.activity_level
         ExtractPlumberContacts.active_only In].
    split; split.
    + intros _; left; reflexivity.
    + intros _; reflexivity.
    + discriminate.
    + intros [H|(d & H & _)]; [|discriminate H].
      repeat match goal with
             | H : _ \/ _ |- _ => destruct H as [H|H]
             end; try discriminate H; contradiction.
Qed.
